(** * ImpactX element maps: a shallow embedding of the per-particle and
      reference-particle transfer maps

    Sources embedded here:
    - [src/particles/elements/Aperture.H]
    - [src/particles/elements/Kicker.H]
    - [src/particles/elements/DipEdge.H]
    - [src/particles/elements/ShortRF.H]
    - [src/particles/elements/ExactSbend.H]
    - [CFbend.H] (combined-function bend)
    - [ThinDipole.H]

    Numbers of type [amrex::ParticleReal] are modelled in exact real
    arithmetic, extended with one absorbing value for results that are
    not finite real numbers (IEEE NaN and the infinities): a division
    by zero, the square root of a negative number or the arc sine of a
    number outside [-1, 1] gives that value, and every operation that
    receives it returns it.  Comparisons with it are false, as the
    comparisons with a NaN are.  Rounding and signed zeros are not
    modelled: a statement about values computed in this arithmetic is a
    statement in exact real arithmetic.

    Where the verdict of a comparison depends on the rounding, the map
    is embedded a second time in IEEE binary64 arithmetic, the default
    [amrex::ParticleReal] (the Aperture map, in [Aperture64]). *)

From Stdlib Require Import Reals Lra Lia ZArith Bool List.
From Stdlib Require Floats.

Local Open Scope bool_scope.
Local Open Scope R_scope.

(** ** Arithmetic of [amrex::ParticleReal] *)

Definition PReal : Type := option R.

Definition fin (r : R) : PReal := Some r.

Definition nonfinite : PReal := None.

Definition lift1 (f : R -> R) (a : PReal) : PReal :=
  match a with
  | Some x => Some (f x)
  | None => None
  end.

Definition lift2 (f : R -> R -> R) (a b : PReal) : PReal :=
  match a, b with
  | Some x, Some y => Some (f x y)
  | _, _ => None
  end.

Definition padd : PReal -> PReal -> PReal := lift2 Rplus.
Definition psub : PReal -> PReal -> PReal := lift2 Rminus.
Definition pmul : PReal -> PReal -> PReal := lift2 Rmult.
Definition pneg : PReal -> PReal := lift1 Ropp.
Definition pabs : PReal -> PReal := lift1 Rabs.
Definition psin : PReal -> PReal := lift1 sin.
Definition pcos : PReal -> PReal := lift1 cos.
Definition psinh : PReal -> PReal := lift1 sinh.
Definition pcosh : PReal -> PReal := lift1 cosh.

(** [a / b]: not finite when [b] is zero. *)
Definition pdiv (a b : PReal) : PReal :=
  match a, b with
  | Some x, Some y => if Req_dec_T y 0 then None else Some (x / y)
  | _, _ => None
  end.

(** [sqrt(a)]: not finite when [a] is negative. *)
Definition psqrt (a : PReal) : PReal :=
  match a with
  | Some x => if Rlt_dec x 0 then None else Some (sqrt x)
  | None => None
  end.

(** [asin(a)]: not finite when [|a| > 1]. *)
Definition pasin (a : PReal) : PReal :=
  match a with
  | Some x => if Rle_dec (Rabs x) 1 then Some (asin x) else None
  | None => None
  end.

(** [tan(a)]: in exact arithmetic the tangent has poles where the cosine
    vanishes. *)
Definition ptan (a : PReal) : PReal :=
  match a with
  | Some x => if Req_dec_T (cos x) 0 then None else Some (tan x)
  | None => None
  end.

(** [pow(a, n)] for the integer exponents the sources use (2, 3, -2):
    a negative exponent is the reciprocal of the positive power. *)
Definition ppow (a : PReal) (n : Z) : PReal :=
  match n with
  | Z0 => fin 1
  | Zpos p => lift1 (fun x => x ^ Pos.to_nat p) a
  | Zneg p => pdiv (fin 1) (lift1 (fun x => x ^ Pos.to_nat p) a)
  end.

(** [a > b] *)
Definition pgt (a b : PReal) : bool :=
  match a, b with
  | Some x, Some y => if Rgt_dec x y then true else false
  | _, _ => false
  end.

(** An [int] converted to [amrex::ParticleReal]. *)
Definition of_int (n : Z) : PReal := fin (IZR n).

Declare Scope preal_scope.
Delimit Scope preal_scope with P.
Bind Scope preal_scope with PReal.
Infix "+" := padd : preal_scope.
Infix "-" := psub : preal_scope.
Infix "*" := pmul : preal_scope.
Infix "/" := pdiv : preal_scope.
Notation "- a" := (pneg a) : preal_scope.

(** ** Particle data *)

(** [ImpactXParticleContainer::ParticleType]: the array-of-structs part
    of a macro-particle, with the three positions [RealAoS::x],
    [RealAoS::y], [RealAoS::t] and the signed integer [id()] whose sign
    encodes liveness. *)
Record PType : Type := mkPType {
  pos_x : PReal;
  pos_y : PReal;
  pos_t : PReal;
  id : Z
}.

(** What an element's [operator()] reads and writes for one particle:
    the particle [p] and the three momenta passed by reference. *)
Record Phase : Type := mkPhase {
  p : PType;
  px : PReal;
  py : PReal;
  pt : PReal
}.

(** Modelled from the spec: [RefPart] (ReferenceParticle.H is not among
    the sources): position [(x, y, z, t)], momentum [(px, py, pz, pt)],
    integrated path length [s], rest mass and charge. *)
Record RefPart : Type := mkRefPart {
  ref_s : PReal;
  ref_x : PReal;
  ref_y : PReal;
  ref_z : PReal;
  ref_t : PReal;
  ref_px : PReal;
  ref_py : PReal;
  ref_pz : PReal;
  ref_pt : PReal;
  ref_mass : PReal;
  ref_charge : PReal
}.

(** The derived read-only quantities of the reference particle
    ([refpart.beta()], [refpart.beta_gamma()], [refpart.rigidity_Tm()]):
    their code is not among the sources, so the maps take them as an
    interface. *)
Class RefPartOps : Type := {
  beta : RefPart -> PReal;
  beta_gamma : RefPart -> PReal;
  rigidity_Tm : RefPart -> PReal
}.

(** Modelled from the spec: the [elements::Thick] mixin (mixin/thick.H
    is not among the sources): a thick element carries a total length
    [m_ds] and a slice count [nslice()]. *)
Record Thick : Type := mkThick {
  m_ds : R;
  nslice : Z
}.

(** [ablastr::constant::math::pi] *)
Definition pi : R := PI.

(** ** Aperture *)

Module Aperture.

Inductive Shape : Type :=
| rectangular
| elliptical.

Record t : Type := mk {
  m_shape : Shape;
  m_xmax : R;
  m_ymax : R
}.

(** The scaled coordinates [u = x / m_xmax] and [v = y / m_ymax]. *)
Definition scaled_u (e : t) (st : Phase) : PReal :=
  (pos_x (p st) / fin (m_xmax e))%P.

Definition scaled_v (e : t) (st : Phase) : PReal :=
  (pos_y (p st) / fin (m_ymax e))%P.

(** The condition of the [if] in the branch of [m_shape]. *)
Definition outside (e : t) (st : Phase) : bool :=
  let u := scaled_u e st in
  let v := scaled_v e st in
  match m_shape e with
  | rectangular => pgt (ppow u 2) (fin 1) || pgt (ppow v 2) (fin 1)
  | elliptical => pgt (ppow u 2 + ppow v 2)%P (fin 1)
  end.

(** [Aperture::operator()] on one particle; [refpart] is unused. *)
Definition push (e : t) (st : Phase) (refpart : RefPart) : Phase :=
  let x := pos_x (p st) in
  let y := pos_y (p st) in
  let id0 := id (p st) in
  if outside e st
  then mkPhase (mkPType x y (pos_t (p st)) (- id0)%Z) (px st) (py st) (pt st)
  else st.

End Aperture.

(** ** Kicker *)

Module Kicker.

Inductive UnitSystem : Type :=
| dimensionless
| Tm.

Record t : Type := mk {
  m_xkick : R;
  m_ykick : R;
  m_unit : UnitSystem
}.

(** [Kicker::operator()] on one particle. *)
Definition push `{RefPartOps} (e : t) (st : Phase) (refpart : RefPart) : Phase :=
  let x := pos_x (p st) in
  let y := pos_y (p st) in
  let t0 := pos_t (p st) in
  let dpx :=
    match m_unit e with
    | Tm => (fin (m_xkick e) / rigidity_Tm refpart)%P
    | dimensionless => fin (m_xkick e)
    end in
  let dpy :=
    match m_unit e with
    | Tm => (fin (m_ykick e) / rigidity_Tm refpart)%P
    | dimensionless => fin (m_ykick e)
    end in
  let pxout := (px st + dpx)%P in
  let pyout := (py st + dpy)%P in
  let ptout := pt st in
  mkPhase (mkPType x y t0 (id (p st))) pxout pyout ptout.

End Kicker.

(** ** DipEdge *)

Module DipEdge.

Record t : Type := mk {
  m_psi : R;
  m_rc : R;
  m_g : R;
  m_K2 : R
}.

(** The zero-gap matrix element [R21 = tan(m_psi)/m_rc]. *)
Definition R21 (e : t) : PReal :=
  (ptan (fin (m_psi e)) / fin (m_rc e))%P.

(** The first-order effect of a nonzero gap, [vf]. *)
Definition vf (e : t) : PReal :=
  let vf0 := ((fin 1 + ppow (psin (fin (m_psi e))) 2)
              / ppow (pcos (fin (m_psi e))) 3)%P in
  (vf0 * (fin (m_g e) * fin (m_K2 e) / ppow (fin (m_rc e)) 2))%P.

(** [R43 = -R21; R43 += vf]. *)
Definition R43 (e : t) : PReal :=
  (- R21 e + vf e)%P.

(** [DipEdge::operator()] on one particle; [pt] and [refpart] are
    unused. *)
Definition push (e : t) (st : Phase) (refpart : RefPart) : Phase :=
  let x := pos_x (p st) in
  let y := pos_y (p st) in
  let px' := (px st + R21 e * x)%P in
  let py' := (py st + R43 e * y)%P in
  mkPhase (p st) px' py' (pt st).

End DipEdge.

(** ** ShortRF *)

Module ShortRF.

Record t : Type := mk {
  m_V : R;
  m_freq : R;
  m_phase : R
}.

(** [phi = m_phase*(pi/180)]: the synchronous phase, given in degrees,
    in radians. *)
Definition phi (e : t) : R := m_phase e * (pi / 180).

(** [ShortRF::operator()] on one particle; [c] is
    [ablastr::constant::SI::c]. *)
Definition push (c : R) (e : t) (st : Phase) (refpart : RefPart) : Phase :=
  let x := pos_x (p st) in
  let y := pos_y (p st) in
  let t0 := pos_t (p st) in
  let k := (fin (2 * pi) / fin c * fin (m_freq e))%P in
  let ptf_ref := ref_pt refpart in
  let pti_ref := (ptf_ref + fin (m_V e) * pcos (fin (phi e)))%P in
  let bgf := psqrt (ppow ptf_ref 2 - fin 1)%P in
  let bgi := psqrt (ppow pti_ref 2 - fin 1)%P in
  let px1 := (px st * bgi)%P in
  let py1 := (py st * bgi)%P in
  let pt1 := (pt st * bgi)%P in
  let pxout := px1 in
  let pyout := py1 in
  let ptout := (pt1 - fin (m_V e) * pcos (k * t0 + fin (phi e))
                + fin (m_V e) * pcos (fin (phi e)))%P in
  mkPhase (mkPType x y t0 (id (p st)))
          (pxout / bgf)%P (pyout / bgf)%P (ptout / bgf)%P.

(** [ShortRF::operator()(RefPart&)]: the reference particle. *)
Definition push_ref (e : t) (refpart : RefPart) : RefPart :=
  let x := ref_x refpart in
  let px0 := ref_px refpart in
  let y := ref_y refpart in
  let py0 := ref_py refpart in
  let z := ref_z refpart in
  let pz0 := ref_pz refpart in
  let t0 := ref_t refpart in
  let pt0 := ref_pt refpart in
  let bgi := psqrt (ppow pt0 2 - fin 1)%P in
  let ptf := (pt0 - fin (m_V e) * pcos (fin (phi e)))%P in
  let bgf := psqrt (ppow ptf 2 - fin 1)%P in
  {| ref_s := ref_s refpart;
     ref_x := x;
     ref_y := y;
     ref_z := z;
     ref_t := t0;
     ref_px := (px0 * bgf / bgi)%P;
     ref_py := (py0 * bgf / bgi)%P;
     ref_pz := (pz0 * bgf / bgi)%P;
     ref_pt := ptf;
     ref_mass := ref_mass refpart;
     ref_charge := ref_charge refpart |}.

End ShortRF.

(** ** ExactSbend *)

Module ExactSbend.

(** [m_phi] is the bend angle in radians: the constructor stores
    [phi * degree2rad]. *)
Record t : Type := mk {
  thick : Thick;
  m_phi : R;
  m_B : R
}.

Definition degree2rad : R := pi / 180.

(** The constructor [ExactSbend(ds, phi, B, nslice)]. *)
Definition make (ds phi B : R) (n : Z) : t :=
  mk (mkThick ds n) (phi * degree2rad) B.

(** The reference particle's orbital radius,
    [(m_B != 0) ? refpart.rigidity_Tm() / m_B : m_ds / m_phi]. *)
Definition rc `{RefPartOps} (e : t) (refpart : RefPart) : PReal :=
  if Req_dec_T (m_B e) 0
  then (fin (m_ds (thick e)) / fin (m_phi e))%P
  else (rigidity_Tm refpart / fin (m_B e))%P.

(** The argument of the first square root,
    [pow(pt,2) - 2/bet*pt - pow(py,2) + 1]. *)
Definition pperp_arg (bet py0 pt0 : PReal) : PReal :=
  (ppow pt0 2 - fin 2 / bet * pt0 - ppow py0 2 + fin 1)%P.

(** [ExactSbend::operator()] on one particle. *)
Definition push `{RefPartOps} (e : t) (st : Phase) (refpart : RefPart) : Phase :=
  let x := pos_x (p st) in
  let y := pos_y (p st) in
  let t0 := pos_t (p st) in
  let px0 := px st in
  let py0 := py st in
  let pt0 := pt st in
  let slice_phi := (fin (m_phi e) / of_int (nslice (thick e)))%P in
  let bet := beta refpart in
  let rc0 := rc e refpart in
  let pperp := psqrt (pperp_arg bet py0 pt0) in
  let pzi := psqrt (ppow pperp 2 - ppow px0 2)%P in
  let rho := (rc0 + x)%P in
  let sin_phi := psin slice_phi in
  let cos_phi := pcos slice_phi in
  let pxout := (px0 * cos_phi + (pzi - rho / rc0) * sin_phi)%P in
  let pyout := py0 in
  let ptout := pt0 in
  let pzf := psqrt (ppow pperp 2 - ppow pxout 2)%P in
  let theta := (slice_phi + pasin (px0 / pperp) - pasin (pxout / pperp))%P in
  let x' := (- rc0 + rho * cos_phi
             + rc0 * (pzf + px0 * sin_phi - pzi * cos_phi))%P in
  let y' := (y + theta * rc0 * py0)%P in
  let t' := (t0 - theta * rc0 * (pt0 - fin 1 / bet)
             - fin (m_phi e) * rc0 / bet)%P in
  mkPhase (mkPType x' y' t' (id (p st))) pxout pyout ptout.

(** [ExactSbend::operator()(RefPart&)]: the reference particle. *)
Definition push_ref `{RefPartOps} (e : t) (refpart : RefPart) : RefPart :=
  let x := ref_x refpart in
  let px0 := ref_px refpart in
  let y := ref_y refpart in
  let py0 := ref_py refpart in
  let z := ref_z refpart in
  let pz0 := ref_pz refpart in
  let t0 := ref_t refpart in
  let pt0 := ref_pt refpart in
  let s := ref_s refpart in
  let slice_ds := (fin (m_ds (thick e)) / of_int (nslice (thick e)))%P in
  let theta := (fin (m_phi e) / of_int (nslice (thick e)))%P in
  let rc0 := rc e refpart in
  let B := (beta_gamma refpart / rc0)%P in
  let sin_theta := psin theta in
  let cos_theta := pcos theta in
  let px' := (px0 * cos_theta - pz0 * sin_theta)%P in
  let py' := py0 in
  let pz' := (pz0 * cos_theta + px0 * sin_theta)%P in
  let pt' := pt0 in
  {| ref_s := (s + slice_ds)%P;
     ref_x := (x + (pz' - pz0) / B)%P;
     ref_y := (y + theta / B * py0)%P;
     ref_z := (z - (px' - px0) / B)%P;
     ref_t := (t0 - theta / B * pt0)%P;
     ref_px := px';
     ref_py := py';
     ref_pz := pz';
     ref_pt := pt';
     ref_mass := ref_mass refpart;
     ref_charge := ref_charge refpart |}.

End ExactSbend.

(** ** CFbend *)

Module CFbend.

Record t : Type := mk {
  thick : Thick;
  m_rc : R;
  m_k : R
}.

(** The net horizontal focusing strength [gx = m_k + pow(m_rc,-2)] and
    the vertical one [gy = -m_k]. *)
Definition gx (e : t) : PReal := (fin (m_k e) + ppow (fin (m_rc e)) (-2))%P.

Definition gy (e : t) : PReal := (- fin (m_k e))%P.

(** The branch frequencies [omegax = sqrt(std::abs(gx))] and
    [omegay = sqrt(std::abs(gy))]. *)
Definition omegax (e : t) : PReal := psqrt (pabs (gx e)).

Definition omegay (e : t) : PReal := psqrt (pabs (gy e)).

(** [CFbend::operator()] on one particle. *)
Definition push (e : t) (st : Phase) (refpart : RefPart) : Phase :=
  let x := pos_x (p st) in
  let y := pos_y (p st) in
  let t0 := pos_t (p st) in
  let px0 := px st in
  let py0 := py st in
  let pt0 := pt st in
  let slice_ds := (fin (m_ds (thick e)) / of_int (nslice (thick e)))%P in
  let pt_ref := ref_pt refpart in
  let betgam2 := (ppow pt_ref 2 - fin 1)%P in
  let bet := psqrt (betgam2 / (fin 1 + betgam2))%P in
  let rc := fin (m_rc e) in
  let gx := gx e in
  let omegax := omegax e in
  let '(x', pxout, t', ptout) :=
    if pgt gx (fin 0) then
      let sinx := psin (omegax * slice_ds)%P in
      let cosx := pcos (omegax * slice_ds)%P in
      let r56 := (slice_ds / betgam2
                  + (sinx - omegax * slice_ds)
                    / (gx * omegax * ppow bet 2 * ppow rc 2))%P in
      ((cosx * x + sinx / omegax * px0
        - (fin 1 - cosx) / (gx * bet * rc) * pt0)%P,
       (- omegax * sinx * x + cosx * px0
        - sinx / (omegax * bet * rc) * pt0)%P,
       (sinx / (omegax * bet * rc) * x
        + (fin 1 - cosx) / (gx * bet * rc) * px0 + t0 + r56 * pt0)%P,
       pt0)
    else
      let sinhx := psinh (omegax * slice_ds)%P in
      let coshx := pcosh (omegax * slice_ds)%P in
      let r56 := (slice_ds / betgam2
                  + (sinhx - omegax * slice_ds)
                    / (gx * omegax * ppow bet 2 * ppow rc 2))%P in
      ((coshx * x + sinhx / omegax * px0
        - (fin 1 - coshx) / (gx * bet * rc) * pt0)%P,
       (omegax * sinhx * x + coshx * px0
        - sinhx / (omegax * bet * rc) * pt0)%P,
       (sinhx / (omegax * bet * rc) * x
        + (fin 1 - coshx) / (gx * bet * rc) * px0 + t0 + r56 * pt0)%P,
       pt0) in
  let gy := gy e in
  let omegay := omegay e in
  let '(y', pyout) :=
    if pgt gy (fin 0) then
      let siny := psin (omegay * slice_ds)%P in
      let cosy := pcos (omegay * slice_ds)%P in
      ((cosy * y + siny / omegay * py0)%P,
       (- omegay * siny * y + cosy * py0)%P)
    else
      let sinhy := psinh (omegay * slice_ds)%P in
      let coshy := pcosh (omegay * slice_ds)%P in
      ((coshy * y + sinhy / omegay * py0)%P,
       (omegay * sinhy * y + coshy * py0)%P) in
  mkPhase (mkPType x' y' t' (id (p st))) pxout pyout ptout.

(** [CFbend::operator()(RefPart&)]: the reference particle. *)
Definition push_ref (e : t) (refpart : RefPart) : RefPart :=
  let x := ref_x refpart in
  let px0 := ref_px refpart in
  let y := ref_y refpart in
  let py0 := ref_py refpart in
  let z := ref_z refpart in
  let pz0 := ref_pz refpart in
  let t0 := ref_t refpart in
  let pt0 := ref_pt refpart in
  let s := ref_s refpart in
  let slice_ds := (fin (m_ds (thick e)) / of_int (nslice (thick e)))%P in
  let theta := (slice_ds / fin (m_rc e))%P in
  let B := (psqrt (ppow pt0 2 - fin 1) / fin (m_rc e))%P in
  let sin_theta := psin theta in
  let cos_theta := pcos theta in
  let px' := (px0 * cos_theta - pz0 * sin_theta)%P in
  let py' := py0 in
  let pz' := (pz0 * cos_theta + px0 * sin_theta)%P in
  let pt' := pt0 in
  {| ref_s := (s + slice_ds)%P;
     ref_x := (x + (pz' - pz0) / B)%P;
     ref_y := (y + theta / B * py0)%P;
     ref_z := (z - (px' - px0) / B)%P;
     ref_t := (t0 - theta / B * pt0)%P;
     ref_px := px';
     ref_py := py';
     ref_pz := pz';
     ref_pt := pt';
     ref_mass := ref_mass refpart;
     ref_charge := ref_charge refpart |}.

End CFbend.

(** ** The slice loop of the driver *)

(** Modelled from the spec: the beamline driver (not among the sources)
    applies the reference map of a thick element once per slice,
    [nslice] times in all. *)
Definition track_ref (push_ref : RefPart -> RefPart) (n : Z) (refpart : RefPart)
  : RefPart :=
  Nat.iter (Z.to_nat n) push_ref refpart.

(** ** A reference particle for the examples *)

(** Modelled from the spec: the derived quantities of [RefPart]
    (ReferenceParticle.H is not among the sources), with the formulas
    the maps under src/ use for the same quantities: [beta*gamma] is
    [sqrt(pow(pt,2) - 1)] as in [ShortRF], [beta] is
    [sqrt(betgam2/(1 + betgam2))] as in [CFbend], and the rigidity is
    the momentum [mass * beta*gamma] divided by the charge. *)
Definition std_beta_gamma (refpart : RefPart) : PReal :=
  psqrt (ppow (ref_pt refpart) 2 - fin 1)%P.

Definition std_beta (refpart : RefPart) : PReal :=
  let betgam2 := (ppow (ref_pt refpart) 2 - fin 1)%P in
  psqrt (betgam2 / (fin 1 + betgam2))%P.

Definition std_rigidity_Tm (refpart : RefPart) : PReal :=
  (ref_mass refpart * std_beta_gamma refpart / ref_charge refpart)%P.

Definition std_ops : RefPartOps :=
  {| beta := std_beta;
     beta_gamma := std_beta_gamma;
     rigidity_Tm := std_rigidity_Tm |}.

(** A reference particle at the origin with energy [pt = -gamma], unit
    mass and unit charge. *)
Definition refpart_of_pt (pt0 : R) : RefPart :=
  {| ref_s := fin 0;
     ref_x := fin 0; ref_y := fin 0; ref_z := fin 0; ref_t := fin 0;
     ref_px := fin 0; ref_py := fin 0; ref_pz := fin 1; ref_pt := fin pt0;
     ref_mass := fin 1; ref_charge := fin 1 |}.

(** A particle with finite coordinates. *)
Definition phase_of (x y t0 px0 py0 pt0 : R) (i : Z) : Phase :=
  mkPhase (mkPType (fin x) (fin y) (fin t0) i) (fin px0) (fin py0) (fin pt0).

(** ** ThinDipole *)

Module ThinDipole.

(** [m_theta] is the bending angle in radians: the constructor stores
    [theta * degree2rad]. *)
Record t : Type := mk {
  m_theta : R;
  m_rc : R
}.

Definition degree2rad : R := pi / 180.

(** The constructor [ThinDipole(theta, rc)]. *)
Definition make (theta rc : R) : t := mk (theta * degree2rad) rc.

(** The function [f] that expresses dp/p in terms of [pt],
    [-1 + sqrt(1 - 2*pt/beta_ref + pow(pt,2))]. *)
Definition f (beta_ref pt0 : PReal) : PReal :=
  (- fin 1 + psqrt (fin 1 - fin 2 * pt0 / beta_ref + ppow pt0 2))%P.

(** [fprime = (1 - beta_ref*pt)/(beta_ref*(1 + f))]. *)
Definition fprime (beta_ref pt0 : PReal) : PReal :=
  ((fin 1 - beta_ref * pt0) / (beta_ref * (fin 1 + f beta_ref pt0)))%P.

(** [ThinDipole::operator()] on one particle. *)
Definition push `{RefPartOps} (e : t) (st : Phase) (refpart : RefPart) : Phase :=
  let x := pos_x (p st) in
  let y := pos_y (p st) in
  let t0 := pos_t (p st) in
  let px0 := px st in
  let py0 := py st in
  let pt0 := pt st in
  let beta_ref := beta refpart in
  let f0 := f beta_ref pt0 in
  let fprime0 := fprime beta_ref pt0 in
  let ds := (fin (m_theta e) * fin (m_rc e))%P in
  let kx := (fin 1 / fin (m_rc e))%P in
  let pxout := (px0 - ppow kx 2 * ds * x + kx * ds * f0)%P in
  let pyout := py0 in
  let t' := (t0 + kx * x * ds * fprime0)%P in
  let ptout := pt0 in
  mkPhase (mkPType x y t' (id (p st))) pxout pyout ptout.

End ThinDipole.

(** ** The particle map over the slices *)

(** The particle map of one element applied slice after slice, each
    time with the reference particle of that slice. *)
Definition track_particle (push : Phase -> RefPart -> Phase)
    (refparts : list RefPart) (st : Phase) : Phase :=
  List.fold_left push refparts st.

(** ** Aperture in binary64 arithmetic *)

(** The particle with its positions and momenta as binary64 numbers. *)
Record PType64 : Type := mkPType64 {
  pos64_x : PrimFloat.float;
  pos64_y : PrimFloat.float;
  pos64_t : PrimFloat.float;
  id64 : Z
}.

Record Phase64 : Type := mkPhase64 {
  p64 : PType64;
  px64 : PrimFloat.float;
  py64 : PrimFloat.float;
  pt64 : PrimFloat.float
}.

Module Aperture64.

Import PrimFloat.

Record t : Type := mk {
  m_shape : Aperture.Shape;
  m_xmax : float;
  m_ymax : float
}.

(** [pow(a, 2)]: the rounded square. *)
Definition pow2 (a : float) : float := (a * a)%float.

(** [a > b] *)
Definition gtb (a b : float) : bool := (b <? a)%float.

(** The scaled coordinates [u = x / m_xmax] and [v = y / m_ymax], each
    a rounded quotient. *)
Definition scaled_u (e : t) (st : Phase64) : float :=
  (pos64_x (p64 st) / m_xmax e)%float.

Definition scaled_v (e : t) (st : Phase64) : float :=
  (pos64_y (p64 st) / m_ymax e)%float.

(** The condition of the [if] in the branch of [m_shape]. *)
Definition outside (e : t) (st : Phase64) : bool :=
  let u := scaled_u e st in
  let v := scaled_v e st in
  match m_shape e with
  | Aperture.rectangular => gtb (pow2 u) 1 || gtb (pow2 v) 1
  | Aperture.elliptical => gtb (pow2 u + pow2 v)%float 1
  end.

(** [Aperture::operator()] on one particle; [refpart] is unused. *)
Definition push (e : t) (st : Phase64) : Phase64 :=
  let x := pos64_x (p64 st) in
  let y := pos64_y (p64 st) in
  let id0 := id64 (p64 st) in
  if outside e st
  then mkPhase64 (mkPType64 x y (pos64_t (p64 st)) (- id0)%Z)
         (px64 st) (py64 st) (pt64 st)
  else st.

End Aperture64.


(** * Properties *)

(** ** The arithmetic of [PReal] *)

Section Arithmetic.

Variables a b : PReal.

Lemma padd_nonfinite_l : (nonfinite + b)%P = nonfinite.
Proof. reflexivity. Qed.

Lemma padd_nonfinite_r : (a + nonfinite)%P = nonfinite.
Proof. destruct a; reflexivity. Qed.

Lemma psub_nonfinite_l : (nonfinite - b)%P = nonfinite.
Proof. reflexivity. Qed.

Lemma psub_nonfinite_r : (a - nonfinite)%P = nonfinite.
Proof. destruct a; reflexivity. Qed.

Lemma pmul_nonfinite_l : (nonfinite * b)%P = nonfinite.
Proof. reflexivity. Qed.

Lemma pmul_nonfinite_r : (a * nonfinite)%P = nonfinite.
Proof. destruct a; reflexivity. Qed.

Lemma pdiv_nonfinite_l : (nonfinite / b)%P = nonfinite.
Proof. reflexivity. Qed.

Lemma pdiv_nonfinite_r : (a / nonfinite)%P = nonfinite.
Proof. destruct a; reflexivity. Qed.

(** Dividing by zero never gives a finite number. *)
Lemma pdiv_zero : (a / fin 0)%P = nonfinite.
Proof.
  destruct a as [x|]; simpl; [|reflexivity].
  destruct (Req_dec_T 0 0) as [_|H]; [reflexivity | contradiction H; reflexivity].
Qed.

(** Adding a finite zero changes nothing, finite or not. *)
Lemma padd_zero_r : (a + fin 0)%P = a.
Proof.
  destruct a as [x|]; simpl; [|reflexivity].
  f_equal. apply Rplus_0_r.
Qed.

End Arithmetic.

(** Nor does dividing by a product that has a zero factor. *)
Lemma pdiv_zero_mul (a b : PReal) : (a / (fin 0 * b))%P = nonfinite.
Proof.
  destruct b as [y|]; [|apply pdiv_nonfinite_r].
  change (fin 0 * Some y)%P with (fin (0 * y)).
  rewrite Rmult_0_l. apply pdiv_zero.
Qed.

Lemma pdiv_zero_mul_mul (a b c : PReal) : (a / (fin 0 * b * c))%P = nonfinite.
Proof.
  destruct b as [y|]; [|rewrite pmul_nonfinite_r; apply pdiv_nonfinite_r].
  change (fin 0 * Some y)%P with (fin (0 * y)).
  rewrite Rmult_0_l. apply pdiv_zero_mul.
Qed.

Lemma pdiv_fin (x y : R) : y <> 0 -> (fin x / fin y)%P = fin (x / y).
Proof.
  intros Hy. simpl. destruct (Req_dec_T y 0) as [E|_]; [contradiction | reflexivity].
Qed.

Lemma psqrt_negative (x : R) : x < 0 -> psqrt (fin x) = nonfinite.
Proof.
  intros Hx. simpl. destruct (Rlt_dec x 0) as [_|H]; [reflexivity | contradiction].
Qed.

Lemma psqrt_fin (x : R) : 0 <= x -> psqrt (fin x) = fin (sqrt x).
Proof.
  intros Hx. simpl. destruct (Rlt_dec x 0) as [H|_]; [lra | reflexivity].
Qed.

Lemma pgt_fin_true (x y : R) : x > y -> pgt (fin x) (fin y) = true.
Proof.
  intros H. simpl. destruct (Rgt_dec x y) as [_|N]; [reflexivity | contradiction].
Qed.

Lemma pgt_fin_false (x y : R) : x <= y -> pgt (fin x) (fin y) = false.
Proof.
  intros H. simpl. destruct (Rgt_dec x y) as [G|_]; [lra | reflexivity].
Qed.

Lemma ppow_nonfinite_2 : ppow nonfinite 2 = nonfinite.
Proof. reflexivity. Qed.

Lemma psqrt_nonfinite : psqrt nonfinite = nonfinite.
Proof. reflexivity. Qed.

Lemma pasin_nonfinite : pasin nonfinite = nonfinite.
Proof. reflexivity. Qed.

Create Rewrite HintDb nonfinite.

#[local] Hint Rewrite padd_nonfinite_l padd_nonfinite_r psub_nonfinite_l
  psub_nonfinite_r pmul_nonfinite_l pmul_nonfinite_r pdiv_nonfinite_l
  pdiv_nonfinite_r pdiv_zero pdiv_zero_mul pdiv_zero_mul_mul ppow_nonfinite_2 psqrt_nonfinite pasin_nonfinite
  : nonfinite.

(** The non-finite value spreads through every expression it enters. *)
Ltac spread := autorewrite with nonfinite; try reflexivity.

(** ** Aperture *)

Section ApertureProps.

Variable e : Aperture.t.
Variable refpart : RefPart.

Lemma Aperture_outside_push (st : Phase) :
  Aperture.outside e (Aperture.push e st refpart) = Aperture.outside e st.
Proof.
  unfold Aperture.push.
  destruct (Aperture.outside e st) eqn:E; [|exact E].
  rewrite <- E. reflexivity.
Qed.

Lemma Aperture_push_id (st : Phase) :
  id (p (Aperture.push e st refpart))
  = (if Aperture.outside e st then - id (p st) else id (p st))%Z.
Proof.
  unfold Aperture.push. destruct (Aperture.outside e st); reflexivity.
Qed.

End ApertureProps.

Lemma ppow_fin_2 (x : R) : ppow (fin x) 2 = fin (x ^ 2).
Proof. reflexivity. Qed.

Lemma Aperture_outside_rectangular (xmax ymax x y : R) (st : Phase) :
  xmax <> 0 -> ymax <> 0 ->
  pos_x (p st) = fin x -> pos_y (p st) = fin y ->
  Aperture.outside (Aperture.mk Aperture.rectangular xmax ymax) st
  = pgt (fin ((x / xmax) ^ 2)) (fin 1) || pgt (fin ((y / ymax) ^ 2)) (fin 1).
Proof.
  intros Hx Hy Ex Ey.
  unfold Aperture.outside, Aperture.scaled_u, Aperture.scaled_v.
  cbn [Aperture.m_shape Aperture.m_xmax Aperture.m_ymax].
  rewrite Ex, Ey, !pdiv_fin, !ppow_fin_2 by assumption.
  reflexivity.
Qed.

Lemma Aperture_outside_elliptical (xmax ymax x y : R) (st : Phase) :
  xmax <> 0 -> ymax <> 0 ->
  pos_x (p st) = fin x -> pos_y (p st) = fin y ->
  Aperture.outside (Aperture.mk Aperture.elliptical xmax ymax) st
  = pgt (fin ((x / xmax) ^ 2 + (y / ymax) ^ 2)) (fin 1).
Proof.
  intros Hx Hy Ex Ey.
  unfold Aperture.outside, Aperture.scaled_u, Aperture.scaled_v.
  cbn [Aperture.m_shape Aperture.m_xmax Aperture.m_ymax].
  rewrite Ex, Ey, !pdiv_fin, !ppow_fin_2 by assumption.
  reflexivity.
Qed.

(** In exact real arithmetic, with positive half-widths: a particle on
    the boundary of the unit-normalized aperture (rectangular: one of
    [u^2], [v^2] is 1 and the other at most 1; elliptical:
    [u^2 + v^2 = 1]) is left as it is; under the elliptical shape a
    particle with [u^2 + v^2 = 1.01] has its id negated, the absolute
    value kept; under the rectangular shape a particle with
    [|u| = 1.2] and [|v| = 0] has its id negated. *)
Lemma Aperture_exact_boundary_cases
    (xmax ymax x y : R) (st : Phase) (refpart : RefPart) :
  0 < xmax -> 0 < ymax ->
  pos_x (p st) = fin x -> pos_y (p st) = fin y ->
  let u := x / xmax in
  let v := y / ymax in
  let rect := Aperture.mk Aperture.rectangular xmax ymax in
  let ell := Aperture.mk Aperture.elliptical xmax ymax in
  ((u ^ 2 = 1 /\ v ^ 2 <= 1) \/ (u ^ 2 <= 1 /\ v ^ 2 = 1) ->
     Aperture.push rect st refpart = st) /\
  (u ^ 2 + v ^ 2 = 1 -> Aperture.push ell st refpart = st) /\
  (u ^ 2 + v ^ 2 = 101 / 100 ->
     id (p (Aperture.push ell st refpart)) = (- id (p st))%Z /\
     Z.abs (id (p (Aperture.push ell st refpart))) = Z.abs (id (p st))) /\
  (Rabs u = 12 / 10 -> Rabs v = 0 ->
     id (p (Aperture.push rect st refpart)) = (- id (p st))%Z /\
     Z.abs (id (p (Aperture.push rect st refpart))) = Z.abs (id (p st))).
Proof.
  intros Hx Hy Ex Ey u v rect ell.
  assert (Nx : xmax <> 0) by lra.
  assert (Ny : ymax <> 0) by lra.
  pose proof (Aperture_outside_rectangular xmax ymax x y st Nx Ny Ex Ey) as Or.
  pose proof (Aperture_outside_elliptical xmax ymax x y st Nx Ny Ex Ey) as Oe.
  fold u v in Or, Oe. fold rect in Or. fold ell in Oe.
  repeat split.
  - intros H. unfold Aperture.push. rewrite Or.
    rewrite !pgt_fin_false by (destruct H as [[H1 H2]|[H1 H2]]; lra).
    reflexivity.
  - intros H. unfold Aperture.push. rewrite Oe.
    rewrite pgt_fin_false by lra. reflexivity.
  - rewrite Aperture_push_id, Oe, pgt_fin_true by lra. reflexivity.
  - rewrite Aperture_push_id, Oe, pgt_fin_true by lra. apply Z.abs_opp.
  - rewrite Aperture_push_id, Or.
    assert (Hu : u ^ 2 > 1).
    { rewrite <- (pow2_abs u). rewrite H. lra. }
    rewrite (pgt_fin_true _ _ Hu). reflexivity.
  - rewrite Aperture_push_id, Or.
    assert (Hu : u ^ 2 > 1).
    { rewrite <- (pow2_abs u). rewrite H. lra. }
    rewrite (pgt_fin_true _ _ Hu). apply Z.abs_opp.
Qed.

(** ** Aperture in binary64 arithmetic *)

Section Aperture64Props.

Import PrimFloat.

#[local] Set Warnings "-inexact-float".






End Aperture64Props.

(** C9: the Aperture map returns the particle it was given with the
    same positions [x], [y], [t] and the same momenta [px], [py], [pt];
    the id is negated exactly when the boundary test fires, and its
    absolute value is the same in both cases. *)
Theorem Aperture_changes_only_id_sign
    (e : Aperture.t) (st : Phase) (refpart : RefPart) :
  let st' := Aperture.push e st refpart in
  pos_x (p st') = pos_x (p st) /\
  pos_y (p st') = pos_y (p st) /\
  pos_t (p st') = pos_t (p st) /\
  px st' = px st /\
  py st' = py st /\
  pt st' = pt st /\
  id (p st') = (if Aperture.outside e st then - id (p st) else id (p st))%Z /\
  Z.abs (id (p st')) = Z.abs (id (p st)).
Proof.
  cbv zeta. rewrite Aperture_push_id.
  unfold Aperture.push.
  destruct (Aperture.outside e st); cbn [p px py pt pos_x pos_y pos_t id];
    repeat split; apply Z.abs_opp.
Qed.

(** C10: on a particle that violates the boundary the Aperture map
    negates the id whatever its sign, so the particle still violates
    the boundary afterwards, a second application gives back the
    original particle, and an id that was negative (lost) becomes
    positive (live). *)
Theorem Aperture_push_involutive
    (e : Aperture.t) (st : Phase) (refpart : RefPart) :
  Aperture.outside e st = true ->
  let st' := Aperture.push e st refpart in
  id (p st') = (- id (p st))%Z /\
  Aperture.outside e st' = true /\
  Aperture.push e st' refpart = st /\
  ((id (p st) < 0)%Z -> (0 < id (p st'))%Z).
Proof.
  intros Hout st'.
  assert (Hid : id (p st') = (- id (p st))%Z).
  { unfold st'. rewrite Aperture_push_id, Hout. reflexivity. }
  assert (Hout' : Aperture.outside e st' = true).
  { unfold st'. rewrite Aperture_outside_push. exact Hout. }
  repeat split; try assumption.
  - unfold Aperture.push at 1. rewrite Hout'.
    unfold st', Aperture.push. rewrite Hout.
    cbn [p px py pt pos_x pos_y pos_t id].
    rewrite Z.opp_involutive. destruct st as [[x y t0 i] a b c]. reflexivity.
  - intros Hneg. rewrite Hid. lia.
Qed.

Lemma Aperture_push_involutive_witness :
  let e := Aperture.mk Aperture.elliptical 1 1 in
  let st := phase_of 2 0 0 0 0 0 (-5) in
  let r := refpart_of_pt (-2) in
  id (p (Aperture.push e st r)) = 5%Z /\
  Aperture.push e (Aperture.push e st r) r = st.
Proof.
  intros e st r.
  assert (Hout : Aperture.outside e st = true).
  { unfold e. rewrite (Aperture_outside_elliptical 1 1 2 0 st) by (try reflexivity; lra).
    apply pgt_fin_true. lra. }
  pose proof (Aperture_push_involutive e st r Hout) as H.
  cbv zeta in H. destruct H as [H1 [_ [H3 _]]].
  split; [exact H1 | exact H3].
Defined.

(** ** Kicker *)

(** C6, amended: with [xkick = 0] and [ykick = 0] the Kicker map returns
    the state it was given, positions and momenta alike, for every
    reference particle in the dimensionless unit system, and in the T-m
    unit system for every reference particle whose rigidity is a finite
    number other than zero. *)
Theorem Kicker_zero_kick_identity {ops : RefPartOps}
    (u : Kicker.UnitSystem) (st : Phase) (refpart : RefPart) :
  (u = Kicker.Tm -> exists r : R, rigidity_Tm refpart = fin r /\ r <> 0) ->
  Kicker.push (Kicker.mk 0 0 u) st refpart = st.
Proof.
  intros Hrig. unfold Kicker.push.
  cbn [Kicker.m_unit Kicker.m_xkick Kicker.m_ykick].
  destruct st as [[x y t0 i] a b c]. cbn [p px py pt pos_x pos_y pos_t id].
  destruct u.
  - rewrite !padd_zero_r. reflexivity.
  - destruct (Hrig eq_refl) as [r [Er Nr]].
    rewrite Er, pdiv_fin by exact Nr.
    replace (0 / r) with 0 by (field; exact Nr).
    rewrite !padd_zero_r. reflexivity.
Qed.

Lemma std_rigidity_Tm_refpart_of_pt (g : R) :
  1 <= g ->
  std_rigidity_Tm (refpart_of_pt (- g)) = fin (1 * sqrt ((- g) ^ 2 - 1) / 1).
Proof.
  intros Hg. unfold std_rigidity_Tm, std_beta_gamma, refpart_of_pt.
  cbn [ref_pt ref_mass ref_charge].
  rewrite ppow_fin_2.
  change (fin ((- g) ^ 2) - fin 1)%P with (fin ((- g) ^ 2 - 1)).
  rewrite psqrt_fin by nra.
  change (fin 1 * fin (sqrt ((- g) ^ 2 - 1)))%P
    with (fin (1 * sqrt ((- g) ^ 2 - 1))).
  apply pdiv_fin. lra.
Qed.

Lemma Kicker_zero_kick_identity_witness :
  let st := phase_of 1 2 3 4 5 6 7 in
  @Kicker.push std_ops (Kicker.mk 0 0 Kicker.dimensionless) st (refpart_of_pt (-2)) = st /\
  @Kicker.push std_ops (Kicker.mk 0 0 Kicker.Tm) st (refpart_of_pt (-2)) = st.
Proof.
  intros st. split.
  - apply (@Kicker_zero_kick_identity std_ops). intros H. discriminate H.
  - apply (@Kicker_zero_kick_identity std_ops). intros _.
    exists (1 * sqrt ((- 2) ^ 2 - 1) / 1). split.
    + apply (std_rigidity_Tm_refpart_of_pt 2). lra.
    + assert (0 < sqrt ((- 2) ^ 2 - 1)) by (apply sqrt_lt_R0; lra).
      lra.
Defined.

(** C6 as stated fails in the T-m unit system for a reference particle
    at rest ([pt = -1], rigidity zero): the kick is [0/0] and the
    momenta are no longer the finite numbers they were. *)
Lemma Kicker_zero_kick_Tm_counterexample :
  let st := phase_of 1 2 3 4 5 6 7 in
  let st' := @Kicker.push std_ops (Kicker.mk 0 0 Kicker.Tm) st (refpart_of_pt (-1)) in
  px st' = nonfinite /\ py st' = nonfinite /\ st' <> st.
Proof.
  intros st st'.
  assert (Hpx : px st' = nonfinite /\ py st' = nonfinite).
  { unfold st', Kicker.push.
    cbn [Kicker.m_unit Kicker.m_xkick Kicker.m_ykick px py rigidity_Tm std_ops].
    change (refpart_of_pt (-1)) with (refpart_of_pt (- (1))).
    rewrite (std_rigidity_Tm_refpart_of_pt 1) by lra.
    replace (1 * sqrt ((- (1)) ^ 2 - 1) / 1) with 0.
    - rewrite pdiv_zero. split; apply padd_nonfinite_r.
    - replace ((- (1)) ^ 2 - 1) with 0 by ring. rewrite sqrt_0. field. }
  destruct Hpx as [Hpx Hpy].
  repeat split; try assumption.
  intros E. rewrite E in Hpx. discriminate Hpx.
Qed.

(** ** DipEdge *)

Section DipEdgeProps.

Variables psi rc K2 : R.
Hypothesis cos_psi : cos psi <> 0.
Hypothesis rc_nonzero : rc <> 0.

Lemma DipEdge_R21_fin (g : R) :
  DipEdge.R21 (DipEdge.mk psi rc g K2) = fin (tan psi / rc).
Proof.
  unfold DipEdge.R21. cbn [DipEdge.m_psi DipEdge.m_rc].
  assert (T : ptan (fin psi) = fin (tan psi)).
  { simpl. destruct (Req_dec_T (cos psi) 0); [contradiction | reflexivity]. }
  rewrite T. apply pdiv_fin. exact rc_nonzero.
Qed.

Lemma DipEdge_vf_zero_gap :
  DipEdge.vf (DipEdge.mk psi rc 0 K2) = fin 0.
Proof.
  unfold DipEdge.vf. cbn [DipEdge.m_psi DipEdge.m_rc DipEdge.m_g DipEdge.m_K2].
  change (ppow (psin (fin psi)) 2) with (fin (sin psi ^ 2)).
  change (ppow (pcos (fin psi)) 3) with (fin (cos psi ^ 3)).
  change (ppow (fin rc) 2) with (fin (rc ^ 2)).
  change (fin 1 + fin (sin psi ^ 2))%P with (fin (1 + sin psi ^ 2)).
  change (fin 0 * fin K2)%P with (fin (0 * K2)).
  rewrite !pdiv_fin by (apply pow_nonzero; assumption).
  unfold pmul, lift2, fin. f_equal. field. split; assumption.
Qed.

End DipEdgeProps.

(** C7: with gap parameter [g = 0], [cos(psi) <> 0] and [rc <> 0], the
    fringe term [vf] is zero and the DipEdge map is the zero-gap kick:
    [px + (tan(psi)/rc)*x] and [py - (tan(psi)/rc)*y]; positions, id and
    [pt] stay as they are. *)
Theorem DipEdge_zero_gap_kick
    (psi rc K2 : R) (st : Phase) (refpart : RefPart) :
  cos psi <> 0 -> rc <> 0 ->
  let e := DipEdge.mk psi rc 0 K2 in
  let st' := DipEdge.push e st refpart in
  DipEdge.vf e = fin 0 /\
  px st' = (px st + fin (tan psi / rc) * pos_x (p st))%P /\
  py st' = (py st - fin (tan psi / rc) * pos_y (p st))%P /\
  p st' = p st /\
  pt st' = pt st.
Proof.
  intros Hc Hr e st'.
  pose proof (DipEdge_vf_zero_gap psi rc K2 Hc Hr) as Hvf.
  pose proof (DipEdge_R21_fin psi rc K2 Hc Hr 0) as H21.
  fold e in Hvf, H21.
  unfold st', DipEdge.push, DipEdge.R43. cbn [p px py pt].
  rewrite Hvf, H21.
  repeat split.
  destruct (py st) as [b|], (pos_y (p st)) as [y|]; simpl; try reflexivity.
  f_equal. ring.
Qed.

Lemma DipEdge_zero_gap_kick_witness :
  let e := DipEdge.mk 0 2 0 (1 / 2) in
  let st := phase_of 1 2 3 4 5 6 7 in
  let st' := DipEdge.push e st (refpart_of_pt (-2)) in
  px st' = fin (4 + tan 0 / 2 * 1) /\ py st' = fin (5 - tan 0 / 2 * 2).
Proof.
  intros e st st'.
  assert (Hc : cos 0 <> 0) by (rewrite cos_0; lra).
  assert (Hr : 2 <> 0) by lra.
  destruct (DipEdge_zero_gap_kick 0 2 (1 / 2) st (refpart_of_pt (-2)) Hc Hr)
    as [_ [Hpx [Hpy _]]].
  split; [exact Hpx | exact Hpy].
Defined.

(** ** ShortRF *)

(** C8: the ShortRF reference map sets [pt] to the old [pt] minus
    [V*cos(m_phase*pi/180)], the cosine of the synchronous phase
    [m_phase], which is given in degrees; the result is the same for
    reference particles of equal [pt], whatever their time coordinate;
    the positions [x], [y], [z], [t] are left as they are. *)
Theorem ShortRF_ref_on_crest_kick (e : ShortRF.t) (refpart : RefPart) :
  let r' := ShortRF.push_ref e refpart in
  ref_pt r'
  = (ref_pt refpart
     - fin (ShortRF.m_V e * cos (ShortRF.m_phase e * (PI / 180))))%P /\
  (forall other : RefPart,
     ref_pt other = ref_pt refpart ->
     ref_pt (ShortRF.push_ref e other) = ref_pt r') /\
  ref_x r' = ref_x refpart /\
  ref_y r' = ref_y refpart /\
  ref_z r' = ref_z refpart /\
  ref_t r' = ref_t refpart.
Proof.
  cbv zeta. unfold ShortRF.push_ref. cbn [ref_pt ref_x ref_y ref_z ref_t].
  repeat split.
  intros other E. rewrite E. reflexivity.
Qed.

(** ** The thick elements: path length and energy *)

Section SliceLoop.

Variable push_ref : RefPart -> RefPart.
Variable d : R.
Hypothesis push_ref_s :
  forall (r : RefPart) (s : R), ref_s r = fin s -> ref_s (push_ref r) = fin (s + d).

(** A reference map that adds [d] to the path length adds [k * d] in
    [k] applications. *)
Lemma iter_ref_s (k : nat) (r : RefPart) (s : R) :
  ref_s r = fin s -> ref_s (Nat.iter k push_ref r) = fin (s + INR k * d).
Proof.
  intros Hs. induction k as [|k IH].
  - simpl. rewrite Hs. f_equal. ring.
  - rewrite S_INR.
    change (Nat.iter (S k) push_ref r) with (push_ref (Nat.iter k push_ref r)).
    rewrite (push_ref_s _ _ IH). f_equal. ring.
Qed.

End SliceLoop.

Lemma slice_ds_fin (ds : R) (n : Z) :
  (1 <= n)%Z -> (fin ds / of_int n)%P = fin (ds / IZR n).
Proof.
  intros Hn. unfold of_int. apply pdiv_fin.
  apply not_0_IZR. lia.
Qed.

Lemma ExactSbend_push_ref_s {ops : RefPartOps}
    (e : ExactSbend.t) (r : RefPart) (s : R) :
  (1 <= nslice (ExactSbend.thick e))%Z ->
  ref_s r = fin s ->
  ref_s (ExactSbend.push_ref e r)
  = fin (s + m_ds (ExactSbend.thick e) / IZR (nslice (ExactSbend.thick e))).
Proof.
  intros Hn Hs. unfold ExactSbend.push_ref. cbn [ref_s].
  rewrite Hs, slice_ds_fin by exact Hn. reflexivity.
Qed.

Lemma CFbend_push_ref_s (e : CFbend.t) (r : RefPart) (s : R) :
  (1 <= nslice (CFbend.thick e))%Z ->
  ref_s r = fin s ->
  ref_s (CFbend.push_ref e r)
  = fin (s + m_ds (CFbend.thick e) / IZR (nslice (CFbend.thick e))).
Proof.
  intros Hn Hs. unfold CFbend.push_ref. cbn [ref_s].
  rewrite Hs, slice_ds_fin by exact Hn. reflexivity.
Qed.

Lemma slices_sum (ds s : R) (n : Z) :
  (1 <= n)%Z -> s + INR (Z.to_nat n) * (ds / IZR n) = s + ds.
Proof.
  intros Hn. rewrite INR_IZR_INZ, Z2Nat.id by lia.
  field. apply not_0_IZR. lia.
Qed.

(** C4: for an ExactSbend and a CFbend of length [ds] cut in
    [nslice >= 1] slices, one application of the reference map adds
    [ds / nslice] to the path length [s], [k] applications add [k]
    times as much, and [nslice] applications add [ds], whatever
    [nslice] is. *)
Theorem Thick_ref_path_length {ops : RefPartOps}
    (eS : ExactSbend.t) (eC : CFbend.t) (ds s : R) (n : Z) (refpart : RefPart) :
  (1 <= n)%Z ->
  ExactSbend.thick eS = mkThick ds n ->
  CFbend.thick eC = mkThick ds n ->
  ref_s refpart = fin s ->
  (ref_s (ExactSbend.push_ref eS refpart) = fin (s + ds / IZR n) /\
   (forall k : nat,
      ref_s (Nat.iter k (ExactSbend.push_ref eS) refpart)
      = fin (s + INR k * (ds / IZR n))) /\
   ref_s (track_ref (ExactSbend.push_ref eS) n refpart) = fin (s + ds)) /\
  (ref_s (CFbend.push_ref eC refpart) = fin (s + ds / IZR n) /\
   (forall k : nat,
      ref_s (Nat.iter k (CFbend.push_ref eC) refpart)
      = fin (s + INR k * (ds / IZR n))) /\
   ref_s (track_ref (CFbend.push_ref eC) n refpart) = fin (s + ds)).
Proof.
  intros Hn HS HC Hs.
  assert (StepS : forall (r : RefPart) (s1 : R), ref_s r = fin s1 ->
            ref_s (ExactSbend.push_ref eS r) = fin (s1 + ds / IZR n)).
  { intros r s1 H1. pose proof (ExactSbend_push_ref_s eS r s1) as H.
    rewrite HS in H. apply H; assumption. }
  assert (StepC : forall (r : RefPart) (s1 : R), ref_s r = fin s1 ->
            ref_s (CFbend.push_ref eC r) = fin (s1 + ds / IZR n)).
  { intros r s1 H1. pose proof (CFbend_push_ref_s eC r s1) as H.
    rewrite HC in H. apply H; assumption. }
  split; (split; [|split]).
  - apply StepS, Hs.
  - intros k. apply iter_ref_s; assumption.
  - unfold track_ref. rewrite (iter_ref_s _ _ StepS _ _ _ Hs).
    f_equal. apply slices_sum, Hn.
  - apply StepC, Hs.
  - intros k. apply iter_ref_s; assumption.
  - unfold track_ref. rewrite (iter_ref_s _ _ StepC _ _ _ Hs).
    f_equal. apply slices_sum, Hn.
Qed.

Lemma Thick_ref_path_length_witness :
  let eS := ExactSbend.make 3 90 0 4 in
  let eC := CFbend.mk (mkThick 3 4) 5 (- (7)) in
  let r := refpart_of_pt (-2) in
  ref_s (track_ref (@ExactSbend.push_ref std_ops eS) 4 r) = fin (0 + 3) /\
  ref_s (track_ref (CFbend.push_ref eC) 4 r) = fin (0 + 3).
Proof.
  intros eS eC r.
  assert (Hn : (1 <= 4)%Z) by lia.
  destruct (@Thick_ref_path_length std_ops eS eC 3 0 4 r Hn eq_refl eq_refl eq_refl)
    as [[_ [_ HS]] [_ [_ HC]]].
  split; [exact HS | exact HC].
Defined.

(** C5: the particle maps and the reference maps of ExactSbend and
    CFbend return the [pt] they were given. *)
Theorem bend_pt_invariant {ops : RefPartOps}
    (eS : ExactSbend.t) (eC : CFbend.t) (st : Phase) (refpart : RefPart) :
  pt (ExactSbend.push eS st refpart) = pt st /\
  ref_pt (ExactSbend.push_ref eS refpart) = ref_pt refpart /\
  pt (CFbend.push eC st refpart) = pt st /\
  ref_pt (CFbend.push_ref eC refpart) = ref_pt refpart.
Proof.
  repeat split.
  unfold CFbend.push.
  destruct (pgt (CFbend.gx eC) (fin 0)), (pgt (CFbend.gy eC) (fin 0));
    reflexivity.
Qed.

(** ** ExactSbend: the unchecked square root *)

Lemma pperp_arg_fin (b py0 pt0 : R) :
  b <> 0 ->
  ExactSbend.pperp_arg (fin b) (fin py0) (fin pt0)
  = fin (pt0 ^ 2 - 2 / b * pt0 - py0 ^ 2 + 1).
Proof.
  intros Hb. unfold ExactSbend.pperp_arg.
  rewrite !ppow_fin_2, pdiv_fin by exact Hb. reflexivity.
Qed.

(** Once the first square root is not finite, so are the new positions
    and the new [px]. *)
Lemma ExactSbend_push_nonfinite {ops : RefPartOps}
    (e : ExactSbend.t) (st : Phase) (refpart : RefPart) :
  psqrt (ExactSbend.pperp_arg (beta refpart) (py st) (pt st)) = nonfinite ->
  let st' := ExactSbend.push e st refpart in
  pos_x (p st') = nonfinite /\
  pos_y (p st') = nonfinite /\
  pos_t (p st') = nonfinite /\
  px st' = nonfinite.
Proof.
  intros H. cbv zeta. unfold ExactSbend.push.
  cbn [p px py pt pos_x pos_y pos_t]. rewrite H.
  repeat split; spread.
Qed.

(** C3: whatever the reference [beta] in (0, 1), there are momenta
    [(px, py, pt)] for which the argument
    [pt^2 - 2*pt/beta - py^2 + 1] of the square root is negative; the
    map takes the root all the same, and the positions and [px] it
    returns are not finite. *)
Theorem ExactSbend_sqrt_argument_unchecked {ops : RefPartOps}
    (e : ExactSbend.t) (refpart : RefPart) (b : R) :
  beta refpart = fin b -> 0 < b < 1 ->
  exists px0 py0 pt0 : R,
    pt0 ^ 2 - 2 / b * pt0 - py0 ^ 2 + 1 < 0 /\
    ExactSbend.pperp_arg (beta refpart) (fin py0) (fin pt0)
    = fin (pt0 ^ 2 - 2 / b * pt0 - py0 ^ 2 + 1) /\
    forall (x y t0 : R) (i : Z),
      let st' := ExactSbend.push e (phase_of x y t0 px0 py0 pt0 i) refpart in
      pos_x (p st') = nonfinite /\
      pos_y (p st') = nonfinite /\
      pos_t (p st') = nonfinite /\
      px st' = nonfinite.
Proof.
  intros Hb [Hb0 Hb1].
  assert (Nb : b <> 0) by lra.
  assert (Hneg : 1 ^ 2 - 2 / b * 1 - 0 ^ 2 + 1 < 0).
  { assert (Hi : b * / b = 1) by (apply Rinv_r; exact Nb).
    assert (Hp : 0 < / b) by (apply Rinv_0_lt_compat; exact Hb0).
    unfold Rdiv. nra. }
  exists 0, 0, 1. split; [exact Hneg|]. split.
  - rewrite Hb. apply pperp_arg_fin, Nb.
  - intros x y t0 i. apply ExactSbend_push_nonfinite.
    cbn [phase_of py pt]. rewrite Hb, pperp_arg_fin by exact Nb.
    apply psqrt_negative, Hneg.
Qed.

Lemma std_beta_refpart_of_pt_2 :
  std_beta (refpart_of_pt (-2)) = fin (sqrt (3 / 4)).
Proof.
  unfold std_beta, refpart_of_pt. cbn [ref_pt].
  rewrite ppow_fin_2.
  change (fin ((-2) ^ 2) - fin 1)%P with (fin ((-2) ^ 2 - 1)).
  change (fin 1 + fin ((-2) ^ 2 - 1))%P with (fin (1 + ((-2) ^ 2 - 1))).
  rewrite pdiv_fin by lra.
  replace (((-2) ^ 2 - 1) / (1 + ((-2) ^ 2 - 1))) with (3 / 4) by field.
  apply psqrt_fin. lra.
Qed.

Lemma sqrt_three_quarters : 0 < sqrt (3 / 4) < 1.
Proof.
  split.
  - apply sqrt_lt_R0. lra.
  - rewrite <- sqrt_1 at 1. apply sqrt_lt_1; lra.
Qed.

Lemma ExactSbend_sqrt_argument_unchecked_witness :
  exists px0 py0 pt0 : R,
    pt0 ^ 2 - 2 / sqrt (3 / 4) * pt0 - py0 ^ 2 + 1 < 0 /\
    pos_x (p (@ExactSbend.push std_ops (ExactSbend.make 1 45 0 1)
                (phase_of 0 0 0 px0 py0 pt0 1) (refpart_of_pt (-2))))
    = nonfinite.
Proof.
  destruct (@ExactSbend_sqrt_argument_unchecked std_ops (ExactSbend.make 1 45 0 1)
              (refpart_of_pt (-2)) (sqrt (3 / 4))
              std_beta_refpart_of_pt_2 sqrt_three_quarters)
    as [px0 [py0 [pt0 [Hneg [_ Hpush]]]]].
  exists px0, py0, pt0. split; [exact Hneg|].
  apply (Hpush 0 0 0 1%Z).
Defined.

(** ** CFbend: the zero-strength case *)

Section CFbendZeroStrength.

Variable e : CFbend.t.

(** Without a quadrupole component ([m_k = 0], a pure sector bend) the
    vertical strength is zero, the test [gy > 0.0] fails and the
    frequency [omegay] is zero. *)
Lemma CFbend_gy_zero :
  CFbend.m_k e = 0 ->
  pgt (CFbend.gy e) (fin 0) = false /\ CFbend.omegay e = fin 0.
Proof.
  intros Hk. unfold CFbend.omegay, CFbend.gy. rewrite Hk.
  change (- fin 0)%P with (fin (- 0)).
  change (pabs (fin (- 0))) with (fin (Rabs (- 0))).
  rewrite Ropp_0, Rabs_R0. split.
  - apply pgt_fin_false. lra.
  - rewrite psqrt_fin by lra. rewrite sqrt_0. reflexivity.
Qed.

(** When the quadrupole cancels the bend's focusing
    ([m_k + 1/m_rc^2 = 0]) the horizontal strength is zero, the test
    [gx > 0.0] fails and the frequency [omegax] is zero. *)
Lemma CFbend_gx_zero :
  CFbend.m_rc e <> 0 ->
  CFbend.m_k e + 1 / CFbend.m_rc e ^ 2 = 0 ->
  pgt (CFbend.gx e) (fin 0) = false /\ CFbend.omegax e = fin 0.
Proof.
  intros Hrc Hg. unfold CFbend.omegax, CFbend.gx.
  change (ppow (fin (CFbend.m_rc e)) (-2))
    with (fin 1 / fin (CFbend.m_rc e ^ 2))%P.
  rewrite pdiv_fin by (apply pow_nonzero; exact Hrc).
  change (fin (CFbend.m_k e) + fin (1 / CFbend.m_rc e ^ 2))%P
    with (fin (CFbend.m_k e + 1 / CFbend.m_rc e ^ 2)).
  rewrite Hg.
  change (pabs (fin 0)) with (fin (Rabs 0)).
  rewrite Rabs_R0. split.
  - apply pgt_fin_false. lra.
  - rewrite psqrt_fin by lra. rewrite sqrt_0. reflexivity.
Qed.

Lemma CFbend_push_zero_gy (st : Phase) (refpart : RefPart) :
  CFbend.m_k e = 0 ->
  pos_y (p (CFbend.push e st refpart)) = nonfinite.
Proof.
  intros Hk. destruct (CFbend_gy_zero Hk) as [Hgt Hom].
  unfold CFbend.push. rewrite Hgt, Hom.
  destruct (pgt (CFbend.gx e) (fin 0)); cbn [p pos_y]; spread.
Qed.

Lemma CFbend_push_zero_gx (st : Phase) (refpart : RefPart) :
  CFbend.m_rc e <> 0 ->
  CFbend.m_k e + 1 / CFbend.m_rc e ^ 2 = 0 ->
  let st' := CFbend.push e st refpart in
  pos_x (p st') = nonfinite /\ pos_t (p st') = nonfinite /\ px st' = nonfinite.
Proof.
  intros Hrc Hg. destruct (CFbend_gx_zero Hrc Hg) as [Hgt Hom].
  cbv zeta. unfold CFbend.push. rewrite Hgt, Hom.
  destruct (pgt (CFbend.gy e) (fin 0)); cbn [p px pos_x pos_t];
    repeat split; spread.
Qed.

End CFbendZeroStrength.

(** C1, on the code: the frequencies are [sqrt(|strength|)], but a
    strength of exactly zero is not set apart.  It takes the [else]
    branch, which divides by the frequency: with [m_k = 0] (so
    [gy = 0]) the new [y] is not finite, and with
    [m_k + 1/m_rc^2 = 0] (so [gx = 0]) the new [x], [t] and [px] are
    not finite, for every particle and every reference particle. *)
Theorem CFbend_zero_strength_divides_by_zero
    (e : CFbend.t) (st : Phase) (refpart : RefPart) :
  CFbend.omegax e = psqrt (pabs (CFbend.gx e)) /\
  CFbend.omegay e = psqrt (pabs (CFbend.gy e)) /\
  (CFbend.m_k e = 0 ->
     CFbend.omegay e = fin 0 /\
     pos_y (p (CFbend.push e st refpart)) = nonfinite) /\
  (CFbend.m_rc e <> 0 -> CFbend.m_k e + 1 / CFbend.m_rc e ^ 2 = 0 ->
     CFbend.omegax e = fin 0 /\
     pos_x (p (CFbend.push e st refpart)) = nonfinite /\
     pos_t (p (CFbend.push e st refpart)) = nonfinite /\
     px (CFbend.push e st refpart) = nonfinite).
Proof.
  split; [reflexivity|]. split; [reflexivity|]. split.
  - intros Hk. split.
    + apply (CFbend_gy_zero e Hk).
    + apply CFbend_push_zero_gy, Hk.
  - intros Hrc Hg. split.
    + apply (CFbend_gx_zero e Hrc Hg).
    + apply (CFbend_push_zero_gx e st refpart Hrc Hg).
Qed.

Lemma CFbend_zero_strength_divides_by_zero_witness :
  let st := phase_of (1 / 1000) (1 / 1000) 0 0 0 0 1 in
  let r := refpart_of_pt (-2) in
  pos_y (p (CFbend.push (CFbend.mk (mkThick 1 1) 10 0) st r))
    = nonfinite /\
  pos_x (p (CFbend.push (CFbend.mk (mkThick 1 1) 1 (- (1))) st r))
    = nonfinite.
Proof.
  intros st r. split.
  - apply (CFbend_zero_strength_divides_by_zero
             (CFbend.mk (mkThick 1 1) 10 0) st r).
    reflexivity.
  - apply (CFbend_zero_strength_divides_by_zero
             (CFbend.mk (mkThick 1 1) 1 (- (1))) st r).
    + cbn [CFbend.m_rc]. lra.
    + cbn [CFbend.m_rc CFbend.m_k]. field.
Defined.

(** * Further properties of the maps *)

(** ** Finite arithmetic *)

Lemma padd_fin (x y : R) : (fin x + fin y)%P = fin (x + y).
Proof. reflexivity. Qed.

Lemma psub_fin (x y : R) : (fin x - fin y)%P = fin (x - y).
Proof. reflexivity. Qed.

Lemma pmul_fin (x y : R) : (fin x * fin y)%P = fin (x * y).
Proof. reflexivity. Qed.

Lemma pneg_fin (x : R) : (- fin x)%P = fin (- x).
Proof. reflexivity. Qed.

Lemma pabs_fin (x : R) : pabs (fin x) = fin (Rabs x).
Proof. reflexivity. Qed.

Lemma psin_fin (x : R) : psin (fin x) = fin (sin x).
Proof. reflexivity. Qed.

Lemma pcos_fin (x : R) : pcos (fin x) = fin (cos x).
Proof. reflexivity. Qed.

Lemma psinh_fin (x : R) : psinh (fin x) = fin (sinh x).
Proof. reflexivity. Qed.

Lemma pcosh_fin (x : R) : pcosh (fin x) = fin (cosh x).
Proof. reflexivity. Qed.

Lemma ppow_fin_3 (x : R) : ppow (fin x) 3 = fin (x ^ 3).
Proof. reflexivity. Qed.

Lemma ppow_fin_m2 (x : R) : x <> 0 -> ppow (fin x) (-2) = fin (1 / x ^ 2).
Proof.
  intros Hx. change (ppow (fin x) (-2)) with (fin 1 / fin (x ^ 2))%P.
  apply pdiv_fin, pow_nonzero, Hx.
Qed.

Lemma pasin_fin (x : R) : Rabs x <= 1 -> pasin (fin x) = fin (asin x).
Proof.
  intros Hx. simpl. destruct (Rle_dec (Rabs x) 1) as [_|N]; [reflexivity | contradiction].
Qed.

Lemma ptan_fin (x : R) : cos x <> 0 -> ptan (fin x) = fin (tan x).
Proof.
  intros Hx. simpl. destruct (Req_dec_T (cos x) 0) as [E|_]; [contradiction | reflexivity].
Qed.

Lemma pneg_nonfinite : (- nonfinite)%P = nonfinite.
Proof. reflexivity. Qed.

Create Rewrite HintDb finite.

#[local] Hint Rewrite padd_fin psub_fin pmul_fin pneg_fin pabs_fin psin_fin
  pcos_fin psinh_fin pcosh_fin ppow_fin_2 ppow_fin_3 : finite.

(** Products and powers of nonzero numbers are nonzero. *)
Ltac nonzero :=
  repeat first
    [ assumption
    | apply Rmult_integral_contrapositive_currified
    | apply pow_nonzero
    | apply not_0_IZR; lia
    | lra ].

(** ** Kicker: kicks add up *)

(** The Kicker map never touches the positions, [pt] and the id.  In
    exact real arithmetic the kicks of two dimensionless kickers in a
    row add up, so the kicker of opposite strength undoes a kicker. *)
Theorem Kicker_kicks_add {ops : RefPartOps}
    (a b c d : R) (u : Kicker.UnitSystem) (st : Phase) (r1 r2 : RefPart) :
  (p (Kicker.push (Kicker.mk a b u) st r1) = p st /\
   pt (Kicker.push (Kicker.mk a b u) st r1) = pt st) /\
  Kicker.push (Kicker.mk c d Kicker.dimensionless)
    (Kicker.push (Kicker.mk a b Kicker.dimensionless) st r1) r2
  = Kicker.push (Kicker.mk (a + c) (b + d) Kicker.dimensionless) st r1 /\
  Kicker.push (Kicker.mk (- a) (- b) Kicker.dimensionless)
    (Kicker.push (Kicker.mk a b Kicker.dimensionless) st r1) r2
  = st.
Proof.
  destruct st as [[x y t0 i] qx qy qt].
  unfold Kicker.push.
  cbn [Kicker.m_unit Kicker.m_xkick Kicker.m_ykick p px py pt pos_x pos_y pos_t id].
  repeat split.
  - destruct qx as [qx|], qy as [qy|]; simpl;
      f_equal; try reflexivity; f_equal; ring.
  - destruct qx as [qx|], qy as [qy|]; simpl;
      f_equal; try reflexivity; f_equal; ring.
Qed.

(** In T-m units with a finite nonzero rigidity the Kicker map is the
    dimensionless one with the kicks divided by the rigidity. *)
Theorem Kicker_Tm_normalized {ops : RefPartOps}
    (a b rig : R) (st : Phase) (refpart : RefPart) :
  rigidity_Tm refpart = fin rig -> rig <> 0 ->
  Kicker.push (Kicker.mk a b Kicker.Tm) st refpart
  = Kicker.push (Kicker.mk (a / rig) (b / rig) Kicker.dimensionless) st refpart.
Proof.
  intros Hr Hn. unfold Kicker.push.
  cbn [Kicker.m_unit Kicker.m_xkick Kicker.m_ykick].
  rewrite Hr, !pdiv_fin by exact Hn. reflexivity.
Qed.

Lemma sqrt_3_pos : 1 * sqrt ((- 2) ^ 2 - 1) / 1 <> 0.
Proof.
  assert (0 < sqrt ((- 2) ^ 2 - 1)) by (apply sqrt_lt_R0; lra).
  lra.
Qed.

Lemma Kicker_Tm_normalized_witness :
  let rig := 1 * sqrt ((- 2) ^ 2 - 1) / 1 in
  let st := phase_of 1 2 3 4 5 6 7 in
  @Kicker.push std_ops (Kicker.mk 1 2 Kicker.Tm) st (refpart_of_pt (- 2))
  = @Kicker.push std_ops (Kicker.mk (1 / rig) (2 / rig) Kicker.dimensionless)
      st (refpart_of_pt (- 2)).
Proof.
  intros rig st.
  apply (@Kicker_Tm_normalized std_ops 1 2 rig st (refpart_of_pt (- 2))).
  - apply (std_rigidity_Tm_refpart_of_pt 2). lra.
  - apply sqrt_3_pos.
Defined.

(** ** DipEdge: matrix elements, inverse edge, zero radius *)

Lemma DipEdge_vf_fin (psi rc g K2 : R) :
  cos psi <> 0 -> rc <> 0 ->
  DipEdge.vf (DipEdge.mk psi rc g K2)
  = fin ((1 + sin psi ^ 2) / cos psi ^ 3 * (g * K2 / rc ^ 2)).
Proof.
  intros Hc Hr. unfold DipEdge.vf.
  cbn [DipEdge.m_psi DipEdge.m_rc DipEdge.m_g DipEdge.m_K2].
  autorewrite with finite.
  rewrite !pdiv_fin by nonzero.
  reflexivity.
Qed.

Lemma DipEdge_R43_fin (psi rc g K2 : R) :
  cos psi <> 0 -> rc <> 0 ->
  DipEdge.R43 (DipEdge.mk psi rc g K2)
  = fin (- (tan psi / rc) + (1 + sin psi ^ 2) / cos psi ^ 3 * (g * K2 / rc ^ 2)).
Proof.
  intros Hc Hr. unfold DipEdge.R43.
  rewrite (DipEdge_R21_fin psi rc K2 Hc Hr g), (DipEdge_vf_fin psi rc g K2 Hc Hr).
  reflexivity.
Qed.

(** The DipEdge map is linear in the transverse position and leaves the
    particle and [pt] alone.  In exact real arithmetic the edge with
    pole-face angle [-psi] and gap [-g] has the opposite matrix
    elements, so it undoes the edge with [psi] and [g] on every
    particle with finite [x], [y], [px] and [py]. *)
Theorem DipEdge_inverse_edge
    (psi rc g K2 x y t0 px0 py0 : R) (i : Z) (pt0 : PReal) (r1 r2 : RefPart) :
  cos psi <> 0 -> rc <> 0 ->
  let st := mkPhase (mkPType (fin x) (fin y) (fin t0) i) (fin px0) (fin py0) pt0 in
  let st' := DipEdge.push (DipEdge.mk psi rc g K2) st r1 in
  DipEdge.R21 (DipEdge.mk (- psi) rc (- g) K2)
  = (- DipEdge.R21 (DipEdge.mk psi rc g K2))%P /\
  DipEdge.R43 (DipEdge.mk (- psi) rc (- g) K2)
  = (- DipEdge.R43 (DipEdge.mk psi rc g K2))%P /\
  p st' = p st /\
  pt st' = pt st /\
  DipEdge.push (DipEdge.mk (- psi) rc (- g) K2) st' r2 = st.
Proof.
  intros Hc Hr st st'.
  assert (Hc' : cos (- psi) <> 0) by (rewrite cos_neg; exact Hc).
  pose proof (DipEdge_R21_fin psi rc K2 Hc Hr g) as A21.
  pose proof (DipEdge_R43_fin psi rc g K2 Hc Hr) as A43.
  pose proof (DipEdge_R21_fin (- psi) rc K2 Hc' Hr (- g)) as B21.
  pose proof (DipEdge_R43_fin (- psi) rc (- g) K2 Hc' Hr) as B43.
  rewrite tan_neg in B21, B43. rewrite sin_neg, cos_neg in B43.
  assert (E21 : - tan psi / rc = - (tan psi / rc)) by (field; exact Hr).
  assert (E43 : - (- tan psi / rc)
                + (1 + (- sin psi) ^ 2) / cos psi ^ 3 * (- g * K2 / rc ^ 2)
                = - (- (tan psi / rc)
                     + (1 + sin psi ^ 2) / cos psi ^ 3 * (g * K2 / rc ^ 2)))
    by (field; split; assumption).
  rewrite E21 in B21. rewrite E43 in B43.
  split; [rewrite A21, B21; reflexivity|].
  split; [rewrite A43, B43; reflexivity|].
  split; [reflexivity|]. split; [reflexivity|].
  unfold st', DipEdge.push. cbn [p px py pt pos_x pos_y].
  rewrite A21, A43, B21, B43. unfold st. cbn [p px py pt pos_x pos_y].
  autorewrite with finite.
  f_equal; f_equal; ring.
Qed.

Lemma cos_PI4_nonzero : cos (PI / 4) <> 0.
Proof.
  rewrite cos_PI4. apply Rgt_not_eq, Rdiv_lt_0_compat; [lra|].
  apply sqrt_lt_R0. lra.
Qed.

Lemma DipEdge_inverse_edge_witness :
  let st := phase_of 1 2 3 4 5 6 7 in
  let r := refpart_of_pt (- 2) in
  DipEdge.push (DipEdge.mk (- (PI / 4)) 2 (- (1 / 100)) (1 / 2))
    (DipEdge.push (DipEdge.mk (PI / 4) 2 (1 / 100) (1 / 2)) st r) r = st.
Proof.
  intros st r.
  assert (Hr : 2 <> 0) by lra.
  apply (DipEdge_inverse_edge (PI / 4) 2 (1 / 100) (1 / 2) 1 2 3 4 5 7 (fin 6) r r
           cos_PI4_nonzero Hr).
Defined.

(** With a zero radius of curvature both matrix elements are a division
    by zero, and the new [px] and [py] are not finite, for every
    particle. *)
Theorem DipEdge_zero_radius
    (psi g K2 : R) (st : Phase) (refpart : RefPart) :
  let st' := DipEdge.push (DipEdge.mk psi 0 g K2) st refpart in
  px st' = nonfinite /\ py st' = nonfinite.
Proof.
  cbv zeta. unfold DipEdge.push, DipEdge.R43, DipEdge.R21.
  cbn [px py DipEdge.m_psi DipEdge.m_rc].
  rewrite pdiv_zero, pneg_nonfinite. split; spread.
Qed.

(** ** Aperture: the two shapes, symmetry *)

(** With the same half-widths, every particle (of finite position) that
    the rectangular aperture marks as lost is marked by the elliptical
    one as well: the ellipse lies inside the rectangle. *)
Theorem Aperture_rectangular_within_elliptical
    (xmax ymax x y : R) (st : Phase) (refpart : RefPart) :
  xmax <> 0 -> ymax <> 0 ->
  pos_x (p st) = fin x -> pos_y (p st) = fin y ->
  let rect := Aperture.mk Aperture.rectangular xmax ymax in
  let ell := Aperture.mk Aperture.elliptical xmax ymax in
  Aperture.outside rect st = true ->
  Aperture.outside ell st = true /\
  id (p (Aperture.push ell st refpart)) = (- id (p st))%Z.
Proof.
  intros Nx Ny Ex Ey rect ell H.
  assert (Hell : Aperture.outside ell st = true).
  { unfold rect, ell in *.
    rewrite (Aperture_outside_rectangular xmax ymax x y st Nx Ny Ex Ey) in H.
    rewrite (Aperture_outside_elliptical xmax ymax x y st Nx Ny Ex Ey).
    apply pgt_fin_true.
    pose proof (pow2_ge_0 (x / xmax)). pose proof (pow2_ge_0 (y / ymax)).
    apply orb_true_iff in H. destruct H as [H|H]; simpl in H;
      match type of H with
      | (if ?c then _ else _) = _ => destruct c; [lra | discriminate H]
      end. }
  split; [exact Hell|].
  rewrite Aperture_push_id, Hell. reflexivity.
Qed.

Lemma Aperture_rectangular_within_elliptical_witness :
  let st := phase_of 3 0 0 0 0 0 7 in
  id (p (Aperture.push (Aperture.mk Aperture.elliptical 2 3) st (refpart_of_pt (- 2))))
  = (- 7)%Z.
Proof.
  intros st.
  assert (Nx : 2 <> 0) by lra.
  assert (Ny : 3 <> 0) by lra.
  apply (Aperture_rectangular_within_elliptical 2 3 3 0 st (refpart_of_pt (- 2))
           Nx Ny eq_refl eq_refl).
  rewrite (Aperture_outside_rectangular 2 3 3 0 st Nx Ny eq_refl eq_refl).
  rewrite pgt_fin_true; [reflexivity|].
  replace ((3 / 2) ^ 2) with (9 / 4) by field. lra.
Defined.

(** The boundary test only sees [x^2] and [y^2]: the Aperture map
    treats a particle and its mirror images in the two axes alike, for
    both shapes and all half-widths. *)
Theorem Aperture_mirror_symmetric
    (e : Aperture.t) (x y : R) (t0 : PReal) (i : Z) (qx qy qt : PReal) :
  let st (a b : R) := mkPhase (mkPType (fin a) (fin b) t0 i) qx qy qt in
  Aperture.outside e (st (- x) y) = Aperture.outside e (st x y) /\
  Aperture.outside e (st x (- y)) = Aperture.outside e (st x y) /\
  Aperture.outside e (st (- x) (- y)) = Aperture.outside e (st x y).
Proof.
  intros st.
  assert (U : forall a m : R, ppow (fin (- a) / fin m)%P 2 = ppow (fin a / fin m)%P 2).
  { intros a m. simpl. destruct (Req_dec_T m 0); [reflexivity|].
    simpl. f_equal. field. assumption. }
  unfold Aperture.outside, Aperture.scaled_u, Aperture.scaled_v, st.
  cbn [p pos_x pos_y]. rewrite !U. repeat split.
Qed.

(** ** The reference maps of the bends: rotation of the momentum *)

Section Rotation.

Variable push_ref : RefPart -> RefPart.
Variable theta : R.
Hypothesis push_ref_rotates :
  forall (r : RefPart) (a b : R),
    ref_px r = fin a -> ref_pz r = fin b ->
    ref_px (push_ref r) = fin (a * cos theta - b * sin theta) /\
    ref_pz (push_ref r) = fin (b * cos theta + a * sin theta).

(** A reference map that turns [(px, pz)] by [theta] turns it by
    [k * theta] in [k] applications. *)
Lemma iter_rotation (k : nat) (r : RefPart) (a b : R) :
  ref_px r = fin a -> ref_pz r = fin b ->
  ref_px (Nat.iter k push_ref r)
  = fin (a * cos (INR k * theta) - b * sin (INR k * theta)) /\
  ref_pz (Nat.iter k push_ref r)
  = fin (b * cos (INR k * theta) + a * sin (INR k * theta)).
Proof.
  intros Ha Hb. induction k as [|k [IHx IHz]].
  - simpl. rewrite Rmult_0_l, cos_0, sin_0, Ha, Hb. split; f_equal; ring.
  - change (Nat.iter (S k) push_ref r) with (push_ref (Nat.iter k push_ref r)).
    destruct (push_ref_rotates _ _ _ IHx IHz) as [Hx Hz].
    rewrite Hx, Hz, S_INR.
    replace ((INR k + 1) * theta) with (INR k * theta + theta) by ring.
    rewrite cos_plus, sin_plus. split; f_equal; ring.
Qed.

End Rotation.

Lemma ExactSbend_push_ref_rotates {ops : RefPartOps}
    (e : ExactSbend.t) (r : RefPart) (a b : R) :
  (1 <= nslice (ExactSbend.thick e))%Z ->
  ref_px r = fin a -> ref_pz r = fin b ->
  let theta := ExactSbend.m_phi e / IZR (nslice (ExactSbend.thick e)) in
  ref_px (ExactSbend.push_ref e r) = fin (a * cos theta - b * sin theta) /\
  ref_pz (ExactSbend.push_ref e r) = fin (b * cos theta + a * sin theta).
Proof.
  intros Hn Ha Hb theta. unfold ExactSbend.push_ref. cbn [ref_px ref_pz].
  rewrite Ha, Hb, slice_ds_fin by exact Hn. split; reflexivity.
Qed.

Lemma CFbend_push_ref_rotates (e : CFbend.t) (r : RefPart) (a b : R) :
  (1 <= nslice (CFbend.thick e))%Z -> CFbend.m_rc e <> 0 ->
  ref_px r = fin a -> ref_pz r = fin b ->
  let theta := m_ds (CFbend.thick e) / IZR (nslice (CFbend.thick e)) / CFbend.m_rc e in
  ref_px (CFbend.push_ref e r) = fin (a * cos theta - b * sin theta) /\
  ref_pz (CFbend.push_ref e r) = fin (b * cos theta + a * sin theta).
Proof.
  intros Hn Hrc Ha Hb theta. unfold CFbend.push_ref. cbn [ref_px ref_pz].
  rewrite Ha, Hb, slice_ds_fin, pdiv_fin by assumption. split; reflexivity.
Qed.

(** In exact real arithmetic: each application of the reference map of
    a bend turns the reference momentum [(px, pz)] by the slice angle
    and keeps [py]; after the [nslice] applications of the slice loop
    the momentum has turned by the whole bend angle, [m_phi] for
    ExactSbend and [ds/rc] for CFbend, whatever [nslice >= 1] is. *)
Theorem bend_ref_momentum_rotation {ops : RefPartOps}
    (eS : ExactSbend.t) (eC : CFbend.t) (a b : R) (n : Z) (refpart : RefPart) :
  (1 <= n)%Z ->
  nslice (ExactSbend.thick eS) = n ->
  nslice (CFbend.thick eC) = n ->
  CFbend.m_rc eC <> 0 ->
  ref_px refpart = fin a -> ref_pz refpart = fin b ->
  let phi := ExactSbend.m_phi eS in
  let psi := m_ds (CFbend.thick eC) / CFbend.m_rc eC in
  let rS := track_ref (ExactSbend.push_ref eS) n refpart in
  let rC := track_ref (CFbend.push_ref eC) n refpart in
  (ref_px rS = fin (a * cos phi - b * sin phi) /\
   ref_pz rS = fin (b * cos phi + a * sin phi) /\
   ref_py (ExactSbend.push_ref eS refpart) = ref_py refpart) /\
  (ref_px rC = fin (a * cos psi - b * sin psi) /\
   ref_pz rC = fin (b * cos psi + a * sin psi) /\
   ref_py (CFbend.push_ref eC refpart) = ref_py refpart).
Proof.
  intros Hn HS HC Hrc Ha Hb phi psi rS rC.
  assert (Nn : IZR n <> 0) by (apply not_0_IZR; lia).
  assert (En : INR (Z.to_nat n) = IZR n)
    by (rewrite INR_IZR_INZ, Z2Nat.id by lia; reflexivity).
  split.
  - destruct (iter_rotation (ExactSbend.push_ref eS) (phi / IZR n)) with
      (k := Z.to_nat n) (r := refpart) (a := a) (b := b) as [Hx Hz]; try assumption.
    { intros r a0 b0 H1 H2.
      pose proof (ExactSbend_push_ref_rotates eS r a0 b0) as H.
      rewrite HS in H. apply H; assumption. }
    rewrite En in Hx, Hz.
    replace (IZR n * (phi / IZR n)) with phi in Hx, Hz by (field; exact Nn).
    repeat split; assumption.
  - destruct (iter_rotation (CFbend.push_ref eC)
                (m_ds (CFbend.thick eC) / IZR n / CFbend.m_rc eC)) with
      (k := Z.to_nat n) (r := refpart) (a := a) (b := b) as [Hx Hz]; try assumption.
    { intros r a0 b0 H1 H2.
      pose proof (CFbend_push_ref_rotates eC r a0 b0) as H.
      rewrite HC in H. apply H; assumption. }
    rewrite En in Hx, Hz.
    replace (IZR n * (m_ds (CFbend.thick eC) / IZR n / CFbend.m_rc eC))
      with psi in Hx, Hz by (unfold psi; field; split; assumption).
    repeat split; assumption.
Qed.

Lemma bend_ref_momentum_rotation_witness :
  let eS := ExactSbend.make 3 90 0 4 in
  let eC := CFbend.mk (mkThick 3 4) 5 (- (7)) in
  let r := refpart_of_pt (- 2) in
  ref_px (track_ref (@ExactSbend.push_ref std_ops eS) 4 r)
  = fin (0 * cos (90 * (pi / 180)) - 1 * sin (90 * (pi / 180))) /\
  ref_px (track_ref (CFbend.push_ref eC) 4 r)
  = fin (0 * cos (3 / 5) - 1 * sin (3 / 5)).
Proof.
  intros eS eC r.
  assert (Hn : (1 <= 4)%Z) by lia.
  assert (Hrc : 5 <> 0) by lra.
  destruct (@bend_ref_momentum_rotation std_ops eS eC 0 1 4 r
              Hn eq_refl eq_refl Hrc eq_refl eq_refl)
    as [[HS _] [HC _]].
  split; [exact HS | exact HC].
Defined.

(** In exact real arithmetic: an ExactSbend without field strength
    ([B = 0], radius [ds/phi]) and a CFbend of the same length with
    radius [rc = ds/phi] move the reference particle alike, whatever
    the quadrupole strength, when [beta_gamma()] is
    [sqrt(pt^2 - 1)]. *)
Theorem ExactSbend_CFbend_same_reference {ops : RefPartOps}
    (ds phi k : R) (n : Z) (refpart : RefPart) :
  ds <> 0 -> phi <> 0 -> (1 <= n)%Z ->
  beta_gamma refpart = psqrt (ppow (ref_pt refpart) 2 - fin 1)%P ->
  ExactSbend.push_ref (ExactSbend.mk (mkThick ds n) phi 0) refpart
  = CFbend.push_ref (CFbend.mk (mkThick ds n) (ds / phi) k) refpart.
Proof.
  intros Hds Hphi Hn Hbg.
  assert (Nn : IZR n <> 0) by (apply not_0_IZR; lia).
  assert (Hrc : ds / phi <> 0).
  { unfold Rdiv. apply Rmult_integral_contrapositive_currified;
      [exact Hds | apply Rinv_neq_0_compat; exact Hphi]. }
  unfold ExactSbend.push_ref, CFbend.push_ref, ExactSbend.rc.
  cbn [ExactSbend.thick ExactSbend.m_phi ExactSbend.m_B CFbend.thick CFbend.m_rc
       m_ds nslice].
  destruct (Req_dec_T 0 0) as [_|N]; [|contradiction N; reflexivity].
  rewrite Hbg, !slice_ds_fin, !pdiv_fin by assumption.
  replace (ds / IZR n / (ds / phi)) with (phi / IZR n)
    by (field; repeat split; assumption).
  reflexivity.
Qed.

Lemma ExactSbend_CFbend_same_reference_witness :
  @ExactSbend.push_ref std_ops (ExactSbend.mk (mkThick 3 4) 2 0) (refpart_of_pt (- 2))
  = CFbend.push_ref (CFbend.mk (mkThick 3 4) (3 / 2) (- (7))) (refpart_of_pt (- 2)).
Proof.
  assert (Hds : 3 <> 0) by lra.
  assert (Hphi : 2 <> 0) by lra.
  assert (Hn : (1 <= 4)%Z) by lia.
  apply (@ExactSbend_CFbend_same_reference std_ops 3 2 (- (7)) 4 (refpart_of_pt (- 2))
           Hds Hphi Hn eq_refl).
Defined.

(** ** ExactSbend: the particle on the reference orbit *)

(** The closed form of the map on the reference orbit, in exact real
    arithmetic. *)
Lemma ExactSbend_push_on_orbit {ops : RefPartOps}
    (e : ExactSbend.t) (refpart : RefPart) (b rcv y t0 : R) (i : Z) :
  (1 <= nslice (ExactSbend.thick e))%Z ->
  beta refpart = fin b -> b <> 0 ->
  ExactSbend.rc e refpart = fin rcv -> rcv <> 0 ->
  let phi := ExactSbend.m_phi e in
  let n := IZR (nslice (ExactSbend.thick e)) in
  ExactSbend.push e (phase_of 0 y t0 0 0 0 i) refpart
  = phase_of 0 y (t0 + (phi / n - phi) * rcv / b) 0 0 0 i /\
  (nslice (ExactSbend.thick e) = 1%Z ->
   ExactSbend.push e (phase_of 0 y t0 0 0 0 i) refpart = phase_of 0 y t0 0 0 0 i).
Proof.
  intros Hn Hb Nb Hrc Nrc phi n.
  assert (Nn : n <> 0) by (apply not_0_IZR; lia).
  assert (Main : ExactSbend.push e (phase_of 0 y t0 0 0 0 i) refpart
                 = phase_of 0 y (t0 + (phi / n - phi) * rcv / b) 0 0 0 i).
  { unfold ExactSbend.push, phase_of. cbn [p px py pt pos_x pos_y pos_t id].
    rewrite Hb, Hrc, slice_ds_fin, pperp_arg_fin by assumption.
    fold n phi.
    replace (0 ^ 2 - 2 / b * 0 - 0 ^ 2 + 1) with 1 by (field; exact Nb).
    rewrite psqrt_fin, sqrt_1 by lra.
    autorewrite with finite.
    replace (1 ^ 2 - 0 ^ 2) with 1 by ring.
    rewrite psqrt_fin, sqrt_1 by lra.
    rewrite !pdiv_fin by nonzero.
    autorewrite with finite.
    replace (0 * cos (phi / n) + (1 - (rcv + 0) / rcv) * sin (phi / n)) with 0
      by (field; exact Nrc).
    replace (1 ^ 2 - 0 ^ 2) with 1 by ring.
    rewrite psqrt_fin, sqrt_1 by lra.
    rewrite !pdiv_fin by nonzero.
    replace (0 / 1) with 0 by field.
    rewrite pasin_fin by (rewrite Rabs_R0; lra).
    rewrite asin_0.
    autorewrite with finite.
    f_equal; f_equal; f_equal; field; repeat split; assumption. }
  split; [exact Main|].
  intros H1. rewrite Main. unfold n. rewrite H1.
  f_equal. field. exact Nb.
Qed.

(** In exact real arithmetic a particle on the reference orbit
    ([x = 0], no momentum deviation) stays on it: the ExactSbend map
    returns [x = 0], [px = 0], [py = 0], [pt = 0] and the [y] and the
    id it was given. *)
Theorem ExactSbend_on_reference_orbit {ops : RefPartOps}
    (e : ExactSbend.t) (refpart : RefPart) (b rcv y t0 : R) (i : Z) :
  (1 <= nslice (ExactSbend.thick e))%Z ->
  beta refpart = fin b -> b <> 0 ->
  ExactSbend.rc e refpart = fin rcv -> rcv <> 0 ->
  let st' := ExactSbend.push e (phase_of 0 y t0 0 0 0 i) refpart in
  pos_x (p st') = fin 0 /\
  pos_y (p st') = fin y /\
  id (p st') = i /\
  px st' = fin 0 /\
  py st' = fin 0 /\
  pt st' = fin 0.
Proof.
  intros Hn Hb Nb Hrc Nrc st'.
  destruct (ExactSbend_push_on_orbit e refpart b rcv y t0 i Hn Hb Nb Hrc Nrc)
    as [Main _].
  unfold st'. rewrite Main. repeat split.
Qed.

Lemma ExactSbend_on_reference_orbit_witness :
  let st' := @ExactSbend.push std_ops (ExactSbend.mk (mkThick 3 4) 2 0)
               (phase_of 0 5 6 0 0 0 7) (refpart_of_pt (- 2)) in
  pos_x (p st') = fin 0 /\ pos_y (p st') = fin 5 /\ px st' = fin 0.
Proof.
  intros st'.
  assert (Hn : (1 <= 4)%Z) by lia.
  assert (Nb : sqrt (3 / 4) <> 0) by (pose proof sqrt_three_quarters; lra).
  assert (Nrc : 3 / 2 <> 0) by lra.
  assert (Hrc : @ExactSbend.rc std_ops (ExactSbend.mk (mkThick 3 4) 2 0)
                  (refpart_of_pt (- 2)) = fin (3 / 2)).
  { unfold ExactSbend.rc. cbn [ExactSbend.m_B ExactSbend.thick ExactSbend.m_phi m_ds].
    destruct (Req_dec_T 0 0) as [_|N]; [|contradiction N; reflexivity].
    apply pdiv_fin. lra. }
  destruct (@ExactSbend_on_reference_orbit std_ops (ExactSbend.mk (mkThick 3 4) 2 0)
              (refpart_of_pt (- 2)) (sqrt (3 / 4)) (3 / 2) 5 6 7
              Hn std_beta_refpart_of_pt_2 Nb Hrc Nrc) as [Hx [Hy [_ [Hpx _]]]].
  split; [exact Hx | split; [exact Hy | exact Hpx]].
Defined.

(** ** CFbend: the vertical plane *)

Lemma cosh_plus (a b : R) : cosh (a + b) = cosh a * cosh b + sinh a * sinh b.
Proof.
  unfold cosh, sinh. rewrite Ropp_plus_distr, !exp_plus. field.
Qed.

Lemma sinh_plus (a b : R) : sinh (a + b) = sinh a * cosh b + cosh a * sinh b.
Proof.
  unfold cosh, sinh. rewrite Ropp_plus_distr, !exp_plus. field.
Qed.

Lemma cosh2_sinh2 (a : R) : cosh a * cosh a - sinh a * sinh a = 1.
Proof.
  assert (H : exp a * exp (- a) = 1)
    by (rewrite <- exp_plus, Rplus_opp_r; apply exp_0).
  unfold cosh, sinh. transitivity (exp a * exp (- a)); [field | exact H].
Qed.

Lemma cos2_sin2 (a : R) : cos a * cos a - -1 * sin a * sin a = 1.
Proof.
  pose proof (sin2_cos2 a) as H. unfold Rsqr in H. lra.
Qed.

(** A map of one phase plane [(y, py)] that is the oscillatory solution
    ([sg = -1], [C = cos], [S = sin]) or the hyperbolic one ([sg = 1],
    [C = cosh], [S = sinh]) of frequency [w] over the slice length
    [s]. *)
Section PlaneSolution.

Variable push : Phase -> RefPart -> Phase.
Variables (C S : R -> R) (sg w s : R).
Hypothesis w_nonzero : w <> 0.
Hypothesis C_0 : C 0 = 1.
Hypothesis S_0 : S 0 = 0.
Hypothesis C_plus : forall a b : R, C (a + b) = C a * C b + sg * S a * S b.
Hypothesis S_plus : forall a b : R, S (a + b) = S a * C b + C a * S b.
Hypothesis push_plane :
  forall (st : Phase) (r : RefPart) (y q : R),
    pos_y (p st) = fin y -> py st = fin q ->
    pos_y (p (push st r)) = fin (C (w * s) * y + S (w * s) / w * q) /\
    py (push st r) = fin (sg * w * S (w * s) * y + C (w * s) * q).

(** Slice after slice the phase advances add up. *)
Lemma track_plane (refparts : list RefPart) (st : Phase) (y q : R) :
  pos_y (p st) = fin y -> py st = fin q ->
  let a := w * (INR (length refparts) * s) in
  pos_y (p (track_particle push refparts st)) = fin (C a * y + S a / w * q) /\
  py (track_particle push refparts st) = fin (sg * w * S a * y + C a * q).
Proof.
  revert st y q. induction refparts as [|r rs IH]; intros st y q Hy Hq.
  - cbn [length INR track_particle fold_left].
    rewrite Rmult_0_l, Rmult_0_r, C_0, S_0, Hy, Hq.
    split; f_equal; field; exact w_nonzero.
  - destruct (push_plane st r y q Hy Hq) as [Hy1 Hq1].
    change (track_particle push (r :: rs) st)
      with (track_particle push rs (push st r)).
    destruct (IH _ _ _ Hy1 Hq1) as [Hy2 Hq2].
    cbv zeta in Hy2, Hq2 |- *. rewrite Hy2, Hq2.
    change (length (r :: rs)) with (Datatypes.S (length rs)). rewrite S_INR.
    replace (w * ((INR (length rs) + 1) * s))
      with (w * s + w * (INR (length rs) * s)) by ring.
    rewrite C_plus, S_plus.
    split; f_equal; field; exact w_nonzero.
Qed.

End PlaneSolution.

Section CFbendVertical.

Variable e : CFbend.t.
Hypothesis nslice_pos : (1 <= nslice (CFbend.thick e))%Z.

Let k := CFbend.m_k e.
Let w := sqrt (Rabs (- k)).
Let s := m_ds (CFbend.thick e) / IZR (nslice (CFbend.thick e)).

Lemma CFbend_omegay_fin : CFbend.omegay e = fin w.
Proof.
  unfold CFbend.omegay, CFbend.gy. autorewrite with finite.
  apply psqrt_fin, Rabs_pos.
Qed.

Lemma CFbend_w_nonzero : k <> 0 -> w <> 0.
Proof.
  intros Hk. apply Rgt_not_eq, sqrt_lt_R0, Rabs_pos_lt. lra.
Qed.

(** [gy > 0]: the oscillatory branch. *)
Lemma CFbend_push_vertical_focusing (st : Phase) (r : RefPart) (y q : R) :
  k < 0 ->
  pos_y (p st) = fin y -> py st = fin q ->
  pos_y (p (CFbend.push e st r)) = fin (cos (w * s) * y + sin (w * s) / w * q) /\
  py (CFbend.push e st r) = fin (-1 * w * sin (w * s) * y + cos (w * s) * q).
Proof.
  intros Hk Hy Hq.
  assert (Nw : w <> 0) by (apply CFbend_w_nonzero; lra).
  assert (Hgt : pgt (CFbend.gy e) (fin 0) = true).
  { unfold CFbend.gy. autorewrite with finite. apply pgt_fin_true. fold k. lra. }
  unfold CFbend.push. rewrite Hgt, CFbend_omegay_fin, Hy, Hq, slice_ds_fin
    by exact nslice_pos.
  fold s.
  destruct (pgt (CFbend.gx e) (fin 0)); cbn [p py pos_y];
    autorewrite with finite; rewrite pdiv_fin by exact Nw;
    autorewrite with finite; split; f_equal; ring.
Qed.

(** [gy < 0]: the hyperbolic branch. *)
Lemma CFbend_push_vertical_defocusing (st : Phase) (r : RefPart) (y q : R) :
  0 < k ->
  pos_y (p st) = fin y -> py st = fin q ->
  pos_y (p (CFbend.push e st r)) = fin (cosh (w * s) * y + sinh (w * s) / w * q) /\
  py (CFbend.push e st r) = fin (1 * w * sinh (w * s) * y + cosh (w * s) * q).
Proof.
  intros Hk Hy Hq.
  assert (Nw : w <> 0) by (apply CFbend_w_nonzero; lra).
  assert (Hgt : pgt (CFbend.gy e) (fin 0) = false).
  { unfold CFbend.gy. autorewrite with finite. apply pgt_fin_false. fold k. lra. }
  unfold CFbend.push. rewrite Hgt, CFbend_omegay_fin, Hy, Hq, slice_ds_fin
    by exact nslice_pos.
  fold s.
  destruct (pgt (CFbend.gx e) (fin 0)); cbn [p py pos_y];
    autorewrite with finite; rewrite pdiv_fin by exact Nw;
    autorewrite with finite; split; f_equal; ring.
Qed.

End CFbendVertical.

(** In exact real arithmetic: over the [nslice] slices of a CFbend with
    [k <> 0] the vertical coordinates [(y, py)] of a particle follow
    the solution of the whole length [ds], oscillatory for [k < 0] and
    hyperbolic for [k > 0], with frequency [sqrt(|k|)]: the result
    depends neither on [nslice] nor on the reference particles, the
    bend radius or the other coordinates. *)
Theorem CFbend_vertical_slices
    (e : CFbend.t) (refparts : list RefPart) (st : Phase) (y q : R) :
  (1 <= nslice (CFbend.thick e))%Z ->
  length refparts = Z.to_nat (nslice (CFbend.thick e)) ->
  pos_y (p st) = fin y -> py st = fin q ->
  let k := CFbend.m_k e in
  let w := sqrt (Rabs (- k)) in
  let a := w * m_ds (CFbend.thick e) in
  let st' := track_particle (CFbend.push e) refparts st in
  (k < 0 ->
   pos_y (p st') = fin (cos a * y + sin a / w * q) /\
   py st' = fin (- w * sin a * y + cos a * q)) /\
  (0 < k ->
   pos_y (p st') = fin (cosh a * y + sinh a / w * q) /\
   py st' = fin (w * sinh a * y + cosh a * q)).
Proof.
  intros Hn Hlen Hy Hq k w a st'.
  set (s := m_ds (CFbend.thick e) / IZR (nslice (CFbend.thick e))).
  assert (Ea : w * (INR (length refparts) * s) = a).
  { rewrite Hlen, INR_IZR_INZ, Z2Nat.id by lia. unfold a, s. field.
    apply not_0_IZR. lia. }
  split; intros Hk.
  - assert (Nw : w <> 0) by (apply CFbend_w_nonzero; unfold k in Hk; lra).
    destruct (track_plane (CFbend.push e) cos sin (-1) w s Nw cos_0 sin_0) with
      (refparts := refparts) (st := st) (y := y) (q := q) as [H1 H2];
      try assumption.
    + intros u v. rewrite cos_plus. ring.
    + apply sin_plus.
    + intros st0 r y0 q0. apply CFbend_push_vertical_focusing; assumption.
    + fold st' in H1, H2. rewrite Ea in H1, H2. rewrite H1, H2.
      split; f_equal; ring.
  - assert (Nw : w <> 0) by (apply CFbend_w_nonzero; unfold k in Hk; lra).
    destruct (track_plane (CFbend.push e) cosh sinh 1 w s Nw cosh_0 sinh_0) with
      (refparts := refparts) (st := st) (y := y) (q := q) as [H1 H2];
      try assumption.
    + intros u v. rewrite cosh_plus. ring.
    + apply sinh_plus.
    + intros st0 r y0 q0. apply CFbend_push_vertical_defocusing; assumption.
    + fold st' in H1, H2. rewrite Ea in H1, H2. rewrite H1, H2.
      split; f_equal; ring.
Qed.

Lemma CFbend_vertical_slices_witness :
  let e := CFbend.mk (mkThick 3 2) 5 (- (4)) in
  let r := refpart_of_pt (- 2) in
  let w := sqrt (Rabs (- - (4))) in
  pos_y (p (track_particle (CFbend.push e) (r :: r :: nil) (phase_of 1 2 3 4 5 6 7)))
  = fin (cos (w * 3) * 2 + sin (w * 3) / w * 5).
Proof.
  intros e r w.
  assert (Hn : (1 <= 2)%Z) by lia.
  destruct (CFbend_vertical_slices e (r :: r :: nil) (phase_of 1 2 3 4 5 6 7) 2 5
              Hn eq_refl eq_refl eq_refl) as [H _].
  apply H. cbn [CFbend.m_k e]. lra.
Defined.

(** In exact real arithmetic: one application of the CFbend map with
    [k <> 0] preserves the symplectic form [y1*py2 - y2*py1] of the
    vertical plane of any two particles. *)
Theorem CFbend_vertical_symplectic
    (e : CFbend.t) (st1 st2 : Phase) (r1 r2 : RefPart) (y1 q1 y2 q2 : R) :
  (1 <= nslice (CFbend.thick e))%Z ->
  CFbend.m_k e <> 0 ->
  pos_y (p st1) = fin y1 -> py st1 = fin q1 ->
  pos_y (p st2) = fin y2 -> py st2 = fin q2 ->
  exists y1' q1' y2' q2' : R,
    pos_y (p (CFbend.push e st1 r1)) = fin y1' /\
    py (CFbend.push e st1 r1) = fin q1' /\
    pos_y (p (CFbend.push e st2 r2)) = fin y2' /\
    py (CFbend.push e st2 r2) = fin q2' /\
    y1' * q2' - y2' * q1' = y1 * q2 - y2 * q1.
Proof.
  intros Hn Hk Hy1 Hq1 Hy2 Hq2.
  set (w := sqrt (Rabs (- CFbend.m_k e))).
  set (s := m_ds (CFbend.thick e) / IZR (nslice (CFbend.thick e))).
  assert (Nw : w <> 0) by (apply CFbend_w_nonzero; exact Hk).
  destruct (Rtotal_order (CFbend.m_k e) 0) as [Hneg | [H0 | Hpos]];
    [| contradiction |].
  - destruct (CFbend_push_vertical_focusing e Hn st1 r1 y1 q1 Hneg Hy1 Hq1) as [A1 B1].
    destruct (CFbend_push_vertical_focusing e Hn st2 r2 y2 q2 Hneg Hy2 Hq2) as [A2 B2].
    fold w s in A1, B1, A2, B2.
    eexists _, _, _, _. repeat (split; [eassumption|]).
    pose proof (cos2_sin2 (w * s)) as D.
    transitivity ((cos (w * s) * cos (w * s) - -1 * sin (w * s) * sin (w * s))
                  * (y1 * q2 - y2 * q1)).
    + field. exact Nw.
    + rewrite D. ring.
  - destruct (CFbend_push_vertical_defocusing e Hn st1 r1 y1 q1 Hpos Hy1 Hq1) as [A1 B1].
    destruct (CFbend_push_vertical_defocusing e Hn st2 r2 y2 q2 Hpos Hy2 Hq2) as [A2 B2].
    fold w s in A1, B1, A2, B2.
    eexists _, _, _, _. repeat (split; [eassumption|]).
    pose proof (cosh2_sinh2 (w * s)) as D.
    transitivity ((cosh (w * s) * cosh (w * s) - sinh (w * s) * sinh (w * s))
                  * (y1 * q2 - y2 * q1)).
    + field. exact Nw.
    + rewrite D. ring.
Qed.

Lemma CFbend_vertical_symplectic_witness :
  let e := CFbend.mk (mkThick 3 2) 5 (- (4)) in
  let r := refpart_of_pt (- 2) in
  exists y1' q1' y2' q2' : R,
    pos_y (p (CFbend.push e (phase_of 1 2 3 4 5 6 7) r)) = fin y1' /\
    py (CFbend.push e (phase_of 1 2 3 4 5 6 7) r) = fin q1' /\
    pos_y (p (CFbend.push e (phase_of 0 1 0 0 0 0 8) r)) = fin y2' /\
    py (CFbend.push e (phase_of 0 1 0 0 0 0 8) r) = fin q2' /\
    y1' * q2' - y2' * q1' = 2 * 0 - 1 * 5.
Proof.
  intros e r.
  assert (Hn : (1 <= 2)%Z) by lia.
  assert (Hk : - (4) <> 0) by lra.
  apply (CFbend_vertical_symplectic e (phase_of 1 2 3 4 5 6 7) (phase_of 0 1 0 0 0 0 8)
           r r 2 5 1 0 Hn Hk eq_refl eq_refl eq_refl eq_refl).
Defined.

(** ** ThinDipole *)

(** Two particles are equal when their coordinates are. *)
Ltac phase_eq :=
  unfold phase_of;
  repeat match goal with
         | |- mkPhase _ _ _ _ = mkPhase _ _ _ _ => f_equal
         | |- mkPType _ _ _ _ = mkPType _ _ _ _ => f_equal
         | |- fin _ = fin _ => apply (f_equal fin)
         end.

Section ThinDipoleProps.

Context {ops : RefPartOps}.
Variable e : ThinDipole.t.
Variable refpart : RefPart.
Variable b : R.
Hypothesis beta_fin : beta refpart = fin b.
Hypothesis b_nonzero : b <> 0.
Hypothesis rc_nonzero : ThinDipole.m_rc e <> 0.

Lemma ThinDipole_f_fin (pt0 : R) :
  0 <= 1 - 2 * pt0 / b + pt0 ^ 2 ->
  ThinDipole.f (fin b) (fin pt0) = fin (- (1) + sqrt (1 - 2 * pt0 / b + pt0 ^ 2)).
Proof.
  intros H. unfold ThinDipole.f. autorewrite with finite.
  rewrite pdiv_fin by exact b_nonzero. autorewrite with finite.
  rewrite psqrt_fin by exact H. reflexivity.
Qed.

Lemma ThinDipole_fprime_fin (pt0 : R) :
  0 < 1 - 2 * pt0 / b + pt0 ^ 2 ->
  ThinDipole.fprime (fin b) (fin pt0)
  = fin ((1 - b * pt0) / (b * (1 + (- (1) + sqrt (1 - 2 * pt0 / b + pt0 ^ 2))))).
Proof.
  intros H. unfold ThinDipole.fprime.
  rewrite ThinDipole_f_fin by lra. autorewrite with finite.
  apply pdiv_fin.
  pose proof (sqrt_lt_R0 _ H).
  apply Rmult_integral_contrapositive_currified; [exact b_nonzero | lra].
Qed.

(** The closed form of the map on finite coordinates, when the
    argument of the square root is positive. *)
Lemma ThinDipole_push_fin (x y t0 px0 py0 pt0 : R) (i : Z) :
  0 < 1 - 2 * pt0 / b + pt0 ^ 2 ->
  let theta := ThinDipole.m_theta e in
  let rc := ThinDipole.m_rc e in
  let f := - (1) + sqrt (1 - 2 * pt0 / b + pt0 ^ 2) in
  ThinDipole.push e (phase_of x y t0 px0 py0 pt0 i) refpart
  = phase_of x y
      (t0 + 1 / rc * x * (theta * rc) * ((1 - b * pt0) / (b * (1 + f))))
      (px0 - (1 / rc) ^ 2 * (theta * rc) * x + 1 / rc * (theta * rc) * f)
      py0 pt0 i.
Proof.
  intros H theta rc f.
  unfold ThinDipole.push, phase_of. cbn [p px py pt pos_x pos_y pos_t id].
  rewrite beta_fin, ThinDipole_f_fin, ThinDipole_fprime_fin by lra.
  rewrite pdiv_fin by exact rc_nonzero.
  autorewrite with finite. reflexivity.
Qed.

End ThinDipoleProps.

(** On a particle of the reference energy ([pt = 0]) the ThinDipole map
    is the linear kick [px - (theta/rc)*x] with the time delay
    [t + theta*x/beta]; [x], [y], [py] and [pt] are left as they
    are. *)
Theorem ThinDipole_on_energy_kick {ops : RefPartOps}
    (e : ThinDipole.t) (refpart : RefPart) (b x y t0 px0 py0 : R) (i : Z) :
  beta refpart = fin b -> b <> 0 -> ThinDipole.m_rc e <> 0 ->
  let theta := ThinDipole.m_theta e in
  let rc := ThinDipole.m_rc e in
  ThinDipole.push e (phase_of x y t0 px0 py0 0 i) refpart
  = phase_of x y (t0 + theta * x / b) (px0 - theta / rc * x) py0 0 i.
Proof.
  intros Hb Nb Nrc theta rc.
  assert (E : 1 - 2 * 0 / b + 0 ^ 2 = 1) by (field; exact Nb).
  rewrite (ThinDipole_push_fin e refpart b Hb Nb Nrc x y t0 px0 py0 0 i)
    by (rewrite E; lra).
  rewrite E, sqrt_1. fold theta rc.
  phase_eq; field; repeat split; assumption.
Qed.

Lemma ThinDipole_on_energy_kick_witness :
  @ThinDipole.push std_ops (ThinDipole.mk (1 / 10) 2) (phase_of 1 2 3 4 5 0 7)
    (refpart_of_pt (- 2))
  = phase_of 1 2 (3 + 1 / 10 * 1 / sqrt (3 / 4)) (4 - 1 / 10 / 2 * 1) 5 0 7.
Proof.
  assert (Nb : sqrt (3 / 4) <> 0) by (pose proof sqrt_three_quarters; lra).
  assert (Nrc : 2 <> 0) by lra.
  apply (@ThinDipole_on_energy_kick std_ops (ThinDipole.mk (1 / 10) 2)
           (refpart_of_pt (- 2)) (sqrt (3 / 4)) 1 2 3 4 5 7
           std_beta_refpart_of_pt_2 Nb Nrc).
Defined.

(** A ThinDipole of zero angle and nonzero radius returns the particle
    it was given whenever the [f] and [fprime] it computes are finite;
    when the argument of the square root in [f], as computed, is
    negative, the new [px] is not finite, zero angle or not. *)
Theorem ThinDipole_zero_angle {ops : RefPartOps}
    (rc theta : R) (refpart : RefPart) (x y t0 px0 py0 pt0 : R) (i : Z) :
  rc <> 0 ->
  (forall fv fp : R,
     ThinDipole.f (beta refpart) (fin pt0) = fin fv ->
     ThinDipole.fprime (beta refpart) (fin pt0) = fin fp ->
     ThinDipole.push (ThinDipole.mk 0 rc) (phase_of x y t0 px0 py0 pt0 i) refpart
     = phase_of x y t0 px0 py0 pt0 i) /\
  (forall a : R,
     (fin 1 - fin 2 * fin pt0 / beta refpart + ppow (fin pt0) 2)%P = fin a ->
     a < 0 ->
     px (ThinDipole.push (ThinDipole.mk theta rc) (phase_of x y t0 px0 py0 pt0 i)
           refpart)
     = nonfinite).
Proof.
  intros Nrc. split.
  - intros fv fp Hf Hfp.
    unfold ThinDipole.push, phase_of.
    cbn [p px py pt pos_x pos_y pos_t id ThinDipole.m_theta ThinDipole.m_rc].
    rewrite Hf, Hfp, pdiv_fin by exact Nrc.
    autorewrite with finite.
    phase_eq; field; exact Nrc.
  - intros a Ha Hneg.
    unfold ThinDipole.push, ThinDipole.f, phase_of. cbn [px py pt p pos_x].
    rewrite Ha, psqrt_negative by exact Hneg. spread.
Qed.

Lemma ThinDipole_zero_angle_witness :
  @ThinDipole.push std_ops (ThinDipole.mk 0 2) (phase_of 1 2 3 4 5 0 7)
    (refpart_of_pt (- 2))
  = phase_of 1 2 3 4 5 0 7.
Proof.
  assert (Nb : sqrt (3 / 4) <> 0) by (pose proof sqrt_three_quarters; lra).
  assert (Nrc : 2 <> 0) by lra.
  assert (E : 1 - 2 * 0 / sqrt (3 / 4) + 0 ^ 2 = 1) by (field; exact Nb).
  destruct (@ThinDipole_zero_angle std_ops 2 0 (refpart_of_pt (- 2))
              1 2 3 4 5 0 7 Nrc) as [H _].
  apply (H (- (1) + sqrt (1 - 2 * 0 / sqrt (3 / 4) + 0 ^ 2))
           ((1 - sqrt (3 / 4) * 0)
            / (sqrt (3 / 4)
               * (1 + (- (1) + sqrt (1 - 2 * 0 / sqrt (3 / 4) + 0 ^ 2)))))).
  - change (@beta std_ops (refpart_of_pt (- 2))) with (std_beta (refpart_of_pt (- 2))).
    rewrite std_beta_refpart_of_pt_2.
    apply (@ThinDipole_f_fin (sqrt (3 / 4)) Nb 0). rewrite E. lra.
  - change (@beta std_ops (refpart_of_pt (- 2))) with (std_beta (refpart_of_pt (- 2))).
    rewrite std_beta_refpart_of_pt_2.
    apply (@ThinDipole_fprime_fin (sqrt (3 / 4)) Nb 0). rewrite E. lra.
Defined.

(** ** ShortRF *)

(** In exact real arithmetic: the particle map takes the reference [pt]
    after the cavity and recovers the one before it by adding
    [V*cos(m_phase*pi/180)] back.  Applied after the reference map, it
    scales the momenta of a particle that arrives on time ([t = 0]) by
    [bgi/bgf], the reference [beta*gamma] before the cavity over the one
    after it, and leaves the positions alone. *)
Theorem ShortRF_on_time_particle
    (c : R) (e : ShortRF.t) (refpart : RefPart) (g0 x y px0 py0 pt0 : R) (i : Z) :
  c <> 0 ->
  ref_pt refpart = fin g0 ->
  let g1 := g0 - ShortRF.m_V e * cos (ShortRF.m_phase e * (PI / 180)) in
  1 <= g0 ^ 2 -> 1 < g1 ^ 2 ->
  let bgi := sqrt (g0 ^ 2 - 1) in
  let bgf := sqrt (g1 ^ 2 - 1) in
  ShortRF.push c e (phase_of x y 0 px0 py0 pt0 i) (ShortRF.push_ref e refpart)
  = phase_of x y 0 (px0 * bgi / bgf) (py0 * bgi / bgf) (pt0 * bgi / bgf) i.
Proof.
  intros Nc Hpt g1 H0 H1 bgi bgf.
  assert (Nf : bgf <> 0) by (apply Rgt_not_eq, sqrt_lt_R0; lra).
  change (ShortRF.m_phase e * (PI / 180)) with (ShortRF.phi e) in (value of g1).
  unfold ShortRF.push, ShortRF.push_ref, phase_of.
  cbn [p px py pt pos_x pos_y pos_t id ref_pt].
  rewrite Hpt. autorewrite with finite. fold g1.
  replace ((g1 + ShortRF.m_V e * cos (ShortRF.phi e)) ^ 2 - 1) with (g0 ^ 2 - 1)
    by (unfold g1; ring).
  rewrite !psqrt_fin by lra. fold bgi bgf.
  rewrite !pdiv_fin by assumption.
  autorewrite with finite.
  rewrite !pdiv_fin by assumption.
  replace (2 * pi / c * ShortRF.m_freq e * 0 + ShortRF.phi e) with (ShortRF.phi e)
    by ring.
  phase_eq. field. exact Nf.
Qed.

Lemma ShortRF_on_time_particle_witness :
  let e := ShortRF.mk 1 1000 0 in
  let g1 := - 2 - 1 * cos (0 * (PI / 180)) in
  ShortRF.push 299792458 e (phase_of 1 2 0 4 5 6 7)
    (ShortRF.push_ref e (refpart_of_pt (- 2)))
  = phase_of 1 2 0 (4 * sqrt ((- 2) ^ 2 - 1) / sqrt (g1 ^ 2 - 1))
      (5 * sqrt ((- 2) ^ 2 - 1) / sqrt (g1 ^ 2 - 1))
      (6 * sqrt ((- 2) ^ 2 - 1) / sqrt (g1 ^ 2 - 1)) 7.
Proof.
  intros e g1.
  assert (Nc : 299792458 <> 0) by lra.
  assert (H0 : 1 <= (- 2) ^ 2) by lra.
  assert (E : g1 = - 3).
  { unfold g1. replace (0 * (PI / 180)) with 0 by ring. rewrite cos_0. ring. }
  assert (H1 : 1 < g1 ^ 2) by (rewrite E; lra).
  apply (ShortRF_on_time_particle 299792458 e (refpart_of_pt (- 2)) (- 2)
           1 2 4 5 6 7 Nc eq_refl H0 H1).
Defined.

(** In exact real arithmetic a cavity of zero voltage changes nothing:
    for a reference particle that moves ([pt^2 > 1]) the reference map
    returns the reference particle and the particle map returns the
    particle, whatever the frequency, the phase and the arrival
    time. *)
Theorem ShortRF_zero_voltage
    (c freq phase g : R) (refpart : RefPart) (a b d : R)
    (x y t0 px0 py0 pt0 : R) (i : Z) :
  c <> 0 -> 1 < g ^ 2 ->
  ref_pt refpart = fin g ->
  ref_px refpart = fin a -> ref_py refpart = fin b -> ref_pz refpart = fin d ->
  let e := ShortRF.mk 0 freq phase in
  ShortRF.push_ref e refpart = refpart /\
  ShortRF.push c e (phase_of x y t0 px0 py0 pt0 i) refpart
  = phase_of x y t0 px0 py0 pt0 i.
Proof.
  intros Nc Hg Hpt Hpx Hpy Hpz e.
  assert (Nbg : sqrt (g ^ 2 - 1) <> 0) by (apply Rgt_not_eq, sqrt_lt_R0; lra).
  split.
  - destruct refpart as [s0 x0 y0 z0 t1 qx qy qz qt m q].
    cbn [ref_pt ref_px ref_py ref_pz] in Hpt, Hpx, Hpy, Hpz. subst qx qy qz qt.
    unfold ShortRF.push_ref, e. cbn [ref_s ref_x ref_y ref_z ref_t ref_px ref_py
      ref_pz ref_pt ref_mass ref_charge ShortRF.m_V].
    autorewrite with finite.
    replace (g - 0 * cos (ShortRF.phi (ShortRF.mk 0 freq phase))) with g by ring.
    rewrite !psqrt_fin by lra. autorewrite with finite.
    rewrite !pdiv_fin by exact Nbg.
    f_equal; apply (f_equal fin); field; exact Nbg.
  - unfold ShortRF.push, e, phase_of.
    cbn [p px py pt pos_x pos_y pos_t id ShortRF.m_V ShortRF.m_freq].
    rewrite Hpt. autorewrite with finite.
    replace (g + 0 * cos (ShortRF.phi (ShortRF.mk 0 freq phase))) with g by ring.
    rewrite !psqrt_fin by lra.
    rewrite !pdiv_fin by assumption.
    autorewrite with finite.
    rewrite !pdiv_fin by assumption.
    phase_eq; field; exact Nbg.
Qed.

Lemma ShortRF_zero_voltage_witness :
  let e := ShortRF.mk 0 1000 30 in
  ShortRF.push_ref e (refpart_of_pt (- 2)) = refpart_of_pt (- 2) /\
  ShortRF.push 299792458 e (phase_of 1 2 3 4 5 6 7) (refpart_of_pt (- 2))
  = phase_of 1 2 3 4 5 6 7.
Proof.
  intros e.
  assert (Nc : 299792458 <> 0) by lra.
  assert (Hg : 1 < (- 2) ^ 2) by lra.
  apply (ShortRF_zero_voltage 299792458 1000 30 (- 2) (refpart_of_pt (- 2)) 0 0 1
           1 2 3 4 5 6 7 Nc Hg eq_refl eq_refl eq_refl eq_refl).
Defined.
